(** * TDungeon: a text dungeon evaluated by the TypeScript type checker

    The game of [src/TDungeon.ts] is a set of type aliases: the map, the
    effects registry and the transition [Act<TGameState, TAction>] are all
    computed by the checker on literal types.  The development below embeds
    that computation over the literal types as values: a string literal type
    is a [string], a tuple type a [list], an object type the list of its
    properties in declaration order, a conditional type a [match].  The helper
    aliases of [src/TypeUtils.ts] that the game uses come first. *)

From stdpp Require Import base list strings.
From Stdlib Require Import ZArith Lia.
From Equations Require Import Equations.

Local Open Scope string_scope.
Local Open Scope list_scope.
Local Open Scope Z_scope.

(** ** TypeUtils.ts *)

(** What the type of a [number] slot can evaluate to: a number literal,
    [undefined] (the fallback of [Get]) or [never]. *)
Inductive TNumber : Type :=
| NumLit (n : Z)
| NumUndefined
| NumNever.

#[global] Instance TNumber_eq_dec : EqDecision TNumber.
Proof. solve_decision. Defined.

(** [Get<TCollection, TKey>] on a tuple with a number literal key that is
    not negative, the only keys the code below passes: the element at that
    index, and the fallback [undefined] (here [None]) when the tuple has no
    such element. *)
Definition Get {A : Type} (TCollection : list A) (TKey : N) : option A :=
  TCollection !! N.to_nat TKey.

(** An object type: its properties in declaration order. *)
Abbreviation Object V := (list (string * V)).

(** [TObj[Key]]: the type of the property named [Key]. *)
Fixpoint prop {V : Type} (TObj : Object V) (Key : string) : option V :=
  match TObj with
  | [] => None
  | (k, v) :: rest => if decide (k = Key) then Some v else prop rest Key
  end.

Module Union.
Section union.
Context {A : Type} `{EqDecision A}.

(** A union type is kept as the list of its distinct members, [never]
    being the empty union.  The order of that list is the checker's: it
    numbers the types as it creates them and keeps the members of a union by
    that number.  Which types exist when a union is formed, and in which
    order they were created, depends on what the checker evaluated before;
    the source does not fix it.  It is the parameter [created] of
    [of_members]: the types created before, oldest first.  Members that are
    not among them are created as the union is formed, in the order of
    [members]. *)
Definition add (TUnion : list A) (TMember : A) : list A :=
  if decide (TMember ∈ TUnion) then TUnion else TUnion ++ [TMember].

Definition of_members (created members : list A) : list A :=
  filter (λ m, m ∈ members) (foldl add [] (created ++ members)).

(** [Exclude<TUnion, TValue> = TUnion extends TValue ? never : TUnion],
    distributed over the members. *)
Definition Exclude (TUnion : list A) (TValue : A) : list A :=
  filter (λ m, m ≠ TValue) TUnion.

(** [Pop<TUnion>]: the last member in the checker's order; [None] stands
    for [never]. *)
Definition Pop (TUnion : list A) : option A := last TUnion.

(** [Popped<TUnion> = Exclude<TUnion, Pop<TUnion>>]. *)
Definition Popped (TUnion : list A) : list A :=
  match Pop TUnion with
  | Some p => Exclude TUnion p
  | None => []
  end.

(** [ToTuple<TUnion> = [TUnion] extends [never] ? []
      : [...ToTuple<Popped<TUnion>>, Pop<TUnion>]]. *)
Equations? ToTuple (TUnion : list A) : list A by wf (length TUnion) lt :=
  ToTuple TUnion with Equations.Prop.Logic.inspect (Pop TUnion) := {
    | exist _ None _ => [];
    | exist _ (Some p) Hp => ToTuple (Popped TUnion) ++ [p] }.
Proof.
  unfold Popped, Exclude. rewrite Hp.
  unfold Pop in Hp. apply last_Some in Hp as [l' ->].
  rewrite filter_app, !length_app, filter_singleton_False by tauto. cbn.
  pose proof (length_filter (λ m, m ≠ p) l'). lia.
Qed.

End union.
End Union.

Module Obj.
(** [KeyWithValue<TObj, TValueType>]: the union of the keys of [TObj] whose
    property type extends [TValueType]; the mapped type visits the keys
    in declaration order, and the union keeps them in the checker's order
    (see [Union.of_members]).  [TValueType] is given as the test
    [_ extends TValueType]. *)
Definition KeyWithValue {V : Type} (created : list string) (TObj : Object V)
    (TValueType : V → bool) : list string :=
  Union.of_members created
    (omap (λ kv : string * V, if TValueType kv.2 then Some kv.1 else None) TObj).

End Obj.

Module List.
(** [Join<TTuple, TDelimeter>]. *)
Fixpoint Join (TTuple : list string) (TDelimeter : string) : string :=
  match TTuple with
  | [] => EmptyString
  | H :: T =>
      match T with
      | [] => H
      | _ => H +:+ TDelimeter +:+ Join T TDelimeter
      end
  end.

(** [Unshift<TTuple, TItem> = [TItem, ...TTuple]]. *)
Definition Unshift {A : Type} (TTuple : list A) (TItem : A) : list A :=
  TItem :: TTuple.

(** [Concat<A, B> = [...A, ...B]]. *)
Definition Concat {A : Type} (TA TB : list A) : list A := TA ++ TB.

(** [Pushed<TTuple, TType> = [...TTuple, TType]]. *)
Definition Pushed {A : Type} (TTuple : list A) (TType : A) : list A :=
  TTuple ++ [TType].

(** [Popped<TTuple>]: [[]] for the empty tuple, otherwise the tuple without
    its last member. *)
Definition Popped {A : Type} (TTuple : list A) : list A :=
  match TTuple with
  | [] => []
  | _ :: _ => removelast TTuple
  end.

(** [Pop<TTuple>]: [undefined] (here [None]) for the empty tuple, otherwise
    the member [X] with [TTuple = [...Popped<TTuple>, X]]. *)
Definition Pop {A : Type} (TTuple : list A) : option A :=
  match TTuple with
  | [] => None
  | _ :: _ => last TTuple
  end.

(** [Shifted<TTuple>]: [[]] for the empty tuple, otherwise the tuple without
    its first member. *)
Definition Shifted {A : Type} (TTuple : list A) : list A :=
  match TTuple with
  | [] => []
  | _ :: rest => rest
  end.

(** [Shift<TTuple>]: [undefined] for the empty tuple, otherwise the first
    member. *)
Definition Shift {A : Type} (TTuple : list A) : option A :=
  match TTuple with
  | [] => None
  | X :: _ => Some X
  end.

(** [ConcatAll<TTuples>]: a tuple of tuples, concatenated from the left. *)
Equations ConcatAll {A : Type} (TTuples : list (list A)) : list A
  by wf (length TTuples) lt :=
  ConcatAll [] := [];
  ConcatAll [TA] := TA;
  ConcatAll (TA :: TB :: X) := ConcatAll (Concat TA TB :: X).


End List.

Module Num.
Definition PositiveIntegers : list Z :=
  [1; 2; 3; 4; 5; 6; 7; 8; 9; 10; 11; 12; 13; 14; 15; 16; 17; 18; 19; 20].
Definition NegativeIntegers : list Z :=
  [-1; -2; -3; -4; -5; -6; -7; -8; -9; -10;
   -11; -12; -13; -14; -15; -16; -17; -18; -19; -20].
Definition PositiveIntegersUnshifted : list Z := List.Unshift PositiveIntegers 0.
Definition PositiveIntegersUnshiftedTwice : list Z :=
  List.Unshift PositiveIntegersUnshifted (-1).
Definition NegativeIntegersUnshifted : list Z := List.Unshift NegativeIntegers 0.

(** What [FromString] and [Negate] evaluate to: a number literal that is
    not negative, or [never]. *)
Inductive TKey : Type :=
| KeyLit (k : N)
| KeyNever.

(** [Get] of a table of numbers at a key that is itself the result of a
    type-level computation: [Get] distributes over [never]. *)
Definition GetNum (TCollection : list Z) (TKey : TKey) : TNumber :=
  match TKey with
  | KeyLit k =>
      match Get TCollection k with
      | Some v => NumLit v
      | None => NumUndefined
      end
  | KeyNever => NumNever
  end.

(** [IsNegative<N>]: the decimal spelling of [N] starts with a minus
    sign. *)
Definition IsNegative (N : Z) : bool := N <? 0.

(** [FromString<S>], a decimal string being kept as the integer [S] it
    spells: ["0"] is [0]; a string without minus sign is looked up among
    the keys of [PositiveIntegersUnshifted], and is [never] when it is none
    of them.  For a string with a minus sign the mapped type compares
    [`-${Num.Assert<I>}`] with the string for every key [I] of
    [NegativeIntegersUnshifted]; a key is a string, so [Num.Assert<I>] is
    [number] and the template extends no string literal: every member is
    [never]. *)
Definition FromString (S : Z) : TKey :=
  if decide (S = 0) then KeyLit 0
  else if IsNegative S then KeyNever
  else
    match Get PositiveIntegersUnshifted (Z.to_N S) with
    | Some v => KeyLit (Z.to_N v)
    | None => KeyNever
    end.

(** [Negate<N>]: [0] for [0]; for a negative [N] the number spelt by its
    digits; for a positive [N], [FromString] of ["-"] and its digits, which
    is [never]. *)
Definition Negate (N : Z) : TKey :=
  if decide (N = 0) then KeyLit 0 else FromString (- N).

(** [Decrement<N> = IsNegative<N> extends false
      ? Get<PositiveIntegersUnshiftedTwice, N>
      : Get<NegativeIntegers, Negate<N>>]. *)
Definition Decrement (N : TNumber) : TNumber :=
  match N with
  | NumLit n =>
      if IsNegative n then GetNum NegativeIntegers (Negate n)
      else GetNum PositiveIntegersUnshiftedTwice (KeyLit (Z.to_N n))
  | NumUndefined => NumUndefined
  | NumNever => NumNever
  end.

Definition NegativeIntegersUnshiftedTwice : list Z :=
  List.Unshift NegativeIntegersUnshifted 1.

(** [Increment<N> = IsNegative<N> extends false
      ? Get<PositiveIntegers, N>
      : Get<NegativeIntegersUnshiftedTwice, Negate<N>>]. *)
Definition Increment (N : TNumber) : TNumber :=
  match N with
  | NumLit n =>
      if IsNegative n then GetNum NegativeIntegersUnshiftedTwice (Negate n)
      else GetNum PositiveIntegers (KeyLit (Z.to_N n))
  | NumUndefined => NumUndefined
  | NumNever => NumNever
  end.
End Num.

(** ** TDungeon.ts: the data model *)

Inductive GameItems : Type := SmallKey | SpiderMask | GreenGem.

#[global] Instance GameItems_eq_dec : EqDecision GameItems.
Proof. solve_decision. Defined.

(** [keyof Actions<any>]: the keys of the effects registry. *)
Inductive ActionKey : Type :=
| keyRoom_key
| keyRoom_exit
| spidersRoomSouthDoor_runForDoor
| spidersRoomSouthDoor_exit
| spidersRoomEastDoor_runForDoor
| spidersRoom_putMask
| chest_unlock
| chest_force
| chest_leave.

#[global] Instance ActionKey_eq_dec : EqDecision ActionKey.
Proof. solve_decision. Defined.

(** [MapElementAction = [GameItems | undefined, keyof Actions<any>]]; the
    actions of a level have a direction index in the second place. *)
Definition ElementAction (E : Type) : Type := option GameItems * E.
Definition MapElementAction : Type := ElementAction ActionKey.

Inductive MapElement : Type :=
| Wall
| Corridor (description : string) (target : MapLevel)
| Room (description insideDescription : string) (actions : Object MapElementAction)
| Item (description : string) (actions : Object MapElementAction)
with MapLevel : Type :=
| Level (Left Forward Right : MapElement).

Definition description (e : MapElement) : string :=
  match e with
  | Wall => "It's a wall"
  | Corridor d _ => d
  | Room d _ _ => d
  | Item d _ => d
  end.

Definition actions (e : MapElement) : Object MapElementAction :=
  match e with
  | Wall => []
  | Corridor _ _ => []
  | Room _ _ a => a
  | Item _ a => a
  end.

(** [TMapLevel["level"]], a tuple of three elements. *)
Definition level (l : MapLevel) : list MapElement :=
  match l with Level a b c => [a; b; c] end.

(** [TMapLevel["actions"]], the same for every level. *)
Definition level_actions : Object (ElementAction N) :=
  [("left", (None, 0%N)); ("forward", (None, 1%N)); ("right", (None, 2%N))].

Inductive Position : Type :=
| AtLevel (l : MapLevel)
| AtElement (e : MapElement).

Record PlayerState : Type := mkPlayerState {
  health : TNumber;
  position : Position;
  inventory : list GameItems;
}.

(** [GameState = [string, PlayerState]]. *)
Definition GameState : Type := string * PlayerState.

(** [Obj.Update<TPlayerState, {...}>] for the fields the registry
    updates. *)
Definition Update_position (s : PlayerState) (p : Position) : PlayerState :=
  {| health := health s; position := p; inventory := inventory s |}.
Definition Update_inventory (s : PlayerState) (i : list GameItems) : PlayerState :=
  {| health := health s; position := position s; inventory := i |}.
Definition Update_health (s : PlayerState) (h : TNumber) : PlayerState :=
  {| health := h; position := position s; inventory := inventory s |}.

(** ** The map *)

Definition GameMap_4 : MapLevel :=
  Level
    Wall
    (Room "a door - and you can feel air current comming from below it"
       "You open the door to a completely dark room. As the door slams shut behind you notice another door on the left wall and... lot's of venomous spiders"
       [("Exit through the other door", (None, spidersRoomEastDoor_runForDoor));
        ("Put on the mask", (Some SpiderMask, spidersRoom_putMask))])
    Wall.

Definition GameMap_3 : MapLevel :=
  Level
    (Corridor "that keep following the tunel seems to be your only option" GameMap_4)
    Wall
    Wall.

Definition GameMap_2 : MapLevel :=
  Level
    (Corridor "that the tunnel you're in continues" GameMap_3)
    Wall
    (Item "Locked Chest"
       [("Use the Small key", (Some SmallKey, chest_unlock));
        ("Force it open", (None, chest_force));
        ("Leave it", (None, chest_leave))]).

Definition GameMap_1 : MapLevel :=
  Level
    Wall
    (Room "a door - and you can feel air current comming through it"
       "You open the door to a room full of venomous spiders. There's another door in the right wall"
       [("Reach for the other door", (None, spidersRoomSouthDoor_runForDoor));
        ("Exit from where you came", (None, spidersRoomSouthDoor_exit));
        ("Put on the mask", (Some SpiderMask, spidersRoom_putMask))])
    (Corridor "a tunnel that biffurcates" GameMap_2).

Definition GameMap_0 : MapLevel :=
  Level
    (Room "a half opened door"
       "Opening the door you find youserlf in a room with a small desk. The desk has one drawer"
       [("Open the drawer", (None, keyRoom_key));
        ("Exit the room", (None, keyRoom_exit))])
    (Corridor "a dark and humid corridor." GameMap_1)
    Wall.

Definition GameMap : list MapLevel :=
  [GameMap_0; GameMap_1; GameMap_2; GameMap_3; GameMap_4].

(** ** The effects registry *)

(** The second place of a registry entry: an updated player state, or
    [never]. *)
Inductive Effect : Type :=
| EffectNever
| EffectState (s : PlayerState).

(** [Actions<TPlayerState>[key]]. *)
Definition Actions (TPlayerState : PlayerState) (key : ActionKey) : string * Effect :=
  match key with
  | keyRoom_key =>
      ("You find a small key! You put in your pocket and leave the room, leaving the door open as you found.",
       EffectState
         (Update_inventory (Update_position TPlayerState (AtLevel GameMap_0))
            (SmallKey :: inventory TPlayerState)))
  | keyRoom_exit =>
      ("You leave the room.",
       EffectState (Update_position TPlayerState (AtLevel GameMap_0)))
  | spidersRoomSouthDoor_runForDoor =>
      ("You make a run for the other door, only to find it locked. You get back from where you came and, as you leave the room, you are bitten and loose one hit point.",
       EffectState
         (Update_position
            (Update_health TPlayerState (Num.Decrement (health TPlayerState)))
            (AtLevel GameMap_1)))
  | spidersRoomSouthDoor_exit =>
      ("You just go back from where you came and avoid getting hurt.",
       EffectState (Update_position TPlayerState (AtLevel GameMap_1)))
  | spidersRoomEastDoor_runForDoor =>
      ("You make a run for the other door, and as you cross it you are bitten and loose one hit point.",
       EffectState
         (Update_health (Update_position TPlayerState (AtLevel GameMap_1))
            (Num.Decrement (health TPlayerState))))
  | spidersRoom_putMask =>
      ("As soon as you put on the mask, the spiders gather around you, and as you move, they spread out making way for you. You focus your efforts in investigating the room and find a hidden passage that leads you... to the lost treasure of Anders Hejlsberg! You did it adventurer, now go check the code.",
       EffectNever)
  | chest_unlock =>
      ("You grab the small key from your pocket and it fits in the chest lock. Click. Inside the chest you find a hairy mask with multiple eyes. You put it in your bag and close the chest.",
       EffectState
         (Update_inventory (Update_position TPlayerState (AtLevel GameMap_2))
            (SpiderMask :: inventory TPlayerState)))
  | chest_force =>
      ("As you rattle the chest's lock, a spider comes out of nowhere and bites you. ",
       EffectState
         (Update_health (Update_position TPlayerState (AtLevel GameMap_2))
            (Num.Decrement (health TPlayerState))))
  | chest_leave =>
      (EmptyString,
       EffectState (Update_position TPlayerState (AtLevel GameMap_2)))
  end.

(** ** Descriptions *)

Definition Directions : list string :=
  ["On your left you notice"; "In front of you there's"; "On your right you see"].

(** A [Get] inside a template literal: the literal found, and the spelling
    of [undefined] otherwise. *)
Definition spell (t : option string) : string := default "undefined" t.

(** One member of the mapped type of [DescribeMapLevel]. *)
Definition DescribeMapElement (Index : nat) (e : MapElement) : string :=
  match e with
  | Wall => EmptyString
  | _ => spell (Get Directions (N.of_nat Index)) +:+ " " +:+ description e +:+ "."
  end.

Definition DescribeMapLevel (TMapLevel : MapLevel) : string :=
  List.Join (imap DescribeMapElement (level TMapLevel)) " ".

(** [_ extends [undefined | TGameState[1]["inventory"][number], any]]. *)
Definition extends_inventory {E : Type} (inv : list GameItems) (a : ElementAction E)
  : bool :=
  match a.1 with
  | None => true
  | Some item => bool_decide (item ∈ inv)
  end.

(** Lists only the actions currently available to the player.  [created]
    is what the checker created before, see [Union.of_members]; it is passed
    on by everything that lists actions. *)
Definition ListActions {E : Type} (created : list string) (TGameState : GameState)
    (TActions : Object (ElementAction E)) : list string :=
  Obj.KeyWithValue created TActions (extends_inventory (inventory TGameState.2)).

(** [ListActions<TGameState>] with [TActions] left at its default, the
    actions of the current position. *)
Definition ListActions_here (created : list string) (TGameState : GameState)
  : list string :=
  match position TGameState.2 with
  | AtLevel _ => ListActions created TGameState level_actions
  | AtElement e => ListActions created TGameState (actions e)
  end.

(** ** Transitions *)

(** The second place of a resulting game state. *)
Inductive FinalState : Type :=
| Alive (s : PlayerState)
| Null
| Never.

(** What [Move] and [Act] evaluate to: [never], [undefined] (the fallback
    of a [Get] that misses), or a game state. *)
Inductive TResult : Type :=
| TNever
| TUndefined
| TGame (narration : string) (state : FinalState).

Definition Move (created : list string) (TGameState : GameState)
    (TAction : string) (TCurrentPosition : MapLevel) : TResult :=
  match prop level_actions TAction with
  | None => TUndefined
  | Some (_, TDirection) =>
      match Get (level TCurrentPosition) TDirection with
      | None => TUndefined
      | Some Wall =>
          TGame ("You can't go this way. " +:+ DescribeMapLevel TCurrentPosition)
            (Alive TGameState.2)
      | Some (Corridor _ target) =>
          TGame (DescribeMapLevel target)
            (Alive (Update_position TGameState.2 (AtLevel target)))
      | Some (Room _ insideDescription TActions as TTargetElement) =>
          TGame
            (insideDescription +:+ ". Your available actions are: "
               +:+ List.Join (Union.ToTuple (ListActions created TGameState TActions)) ", ")
            (Alive (Update_position TGameState.2 (AtElement TTargetElement)))
      | Some (Item description TActions as TTargetElement) =>
          TGame
            ("You reach for the " +:+ description +:+ ". Your available actions are: "
               +:+ List.Join (Union.ToTuple (ListActions created TGameState TActions)) ", ")
            (Alive (Update_position TGameState.2 (AtElement TTargetElement)))
      end
  end.

(** [_ extends 0] for the type of a health slot; the test is not
    distributive, so [never] passes it. *)
Definition extends_0 (h : TNumber) : bool :=
  match h with
  | NumLit n => bool_decide (n = 0)
  | NumUndefined => false
  | NumNever => true
  end.

Definition CheckActionResult (TGameState : string * Effect) : TResult :=
  match TGameState.2 with
  | EffectNever => TGame TGameState.1 Never
  | EffectState s =>
      if extends_0 (health s) then
        TGame (TGameState.1 +:+ " You are Dead - Game Over!") Null
      else
        match position s with
        | AtLevel l => TGame (TGameState.1 +:+ " " +:+ DescribeMapLevel l) (Alive s)
        | AtElement _ => TGame TGameState.1 (Alive s)
        end
  end.

(** [_ extends PlayerState]: the health slot must extend [number]. *)
Definition extends_PlayerState (s : PlayerState) : bool :=
  bool_decide (health s ≠ NumUndefined).

(** [_ extends GameState] for a registry entry. *)
Definition extends_GameState (g : string * Effect) : bool :=
  match g.2 with
  | EffectNever => true
  | EffectState s => extends_PlayerState s
  end.

Definition InteractiveMapElement (e : MapElement) : bool :=
  match e with
  | Room _ _ _ | Item _ _ => true
  | Wall | Corridor _ _ => false
  end.

(** The body of [Act], [TPlayerState] being left at its default
    [TGameState[1]].  The constraint of [TAction] makes [TAction] a key of
    the actions of the current position, so the lookups below and in [Move]
    find their key whenever [Act] evaluates the body; the branches for a
    missing key are there to keep the functions total. *)
Definition Act_body (created : list string) (TGameState : GameState)
    (TAction : string) : TResult :=
  let TPlayerState := TGameState.2 in
  match position TPlayerState with
  | AtLevel TCurrentPosition => Move created TGameState TAction TCurrentPosition
  | AtElement TCurrentPosition =>
      if InteractiveMapElement TCurrentPosition then
        match prop (actions TCurrentPosition) TAction with
        | Some (_, key) =>
            let TSelectedAction := Actions TPlayerState key in
            if extends_GameState TSelectedAction
            then CheckActionResult TSelectedAction
            else TNever
        | None => TNever
        end
      else TNever
  end.

(** The checker refuses an instantiation whose argument does not satisfy the
    constraint of its type parameter. *)
Inductive TypeError : Type :=
| ConstraintNotSatisfied (TParameter : string).

Inductive Instantiation : Type :=
| Rejected (e : TypeError)
| Evaluated (r : TResult).

(** [Act<TGameState extends GameState, TAction extends ListActions<TGameState>>]. *)
Definition Act (created : list string) (TGameState : GameState)
    (TAction : string) : Instantiation :=
  if negb (extends_PlayerState TGameState.2) then
    Rejected (ConstraintNotSatisfied "TGameState")
  else if bool_decide (TAction ∈ ListActions_here created TGameState) then
    Evaluated (Act_body created TGameState TAction)
  else
    Rejected (ConstraintNotSatisfied "TAction").

(** [NewState]; its position is [GameMap[0]], the level [NewGame]
    describes. *)
Definition NewState : PlayerState :=
  {| health := NumLit 2; inventory := []; position := AtLevel GameMap_0 |}.

Definition NewGame : GameState :=
  ("Welcome Adventurer. You locked yourself in this dungeon and you can't go back. "
     +:+ DescribeMapLevel GameMap_0
     +:+ " Use the type Act<TGameState, TAction>.",
   NewState).


(** ** Notions of the specification *)

(** The gate of an action table entry: its required item is absent or
    held. *)
Definition requiredItem_held {E : Type} (inv : list GameItems) (a : ElementAction E)
  : Prop :=
  a.1 = None ∨ ∃ item, a.1 = Some item ∧ item ∈ inv.

#[global] Instance requiredItem_held_dec {E : Type} inv (a : ElementAction E) :
  Decision (requiredItem_held inv a).
Proof.
  unfold requiredItem_held. destruct a.1 as [item|].
  - destruct (decide (item ∈ inv)) as [Hin|Hout].
    + left. right. by exists item.
    + right. intros [?|(i & [= <-] & ?)]; done.
  - left. by left.
Defined.

(** The slot of a level a direction action leads to. *)
Definition slot (l : MapLevel) (action : string) : option MapElement :=
  match l with
  | Level Left Forward Right =>
      if decide (action = "left") then Some Left
      else if decide (action = "forward") then Some Forward
      else if decide (action = "right") then Some Right
      else None
  end.

(** What a slot contributes to the description of its level when a wall
    contributes nothing. *)
Definition contribution (phrase : string) (e : MapElement) : option string :=
  match e with
  | Wall => None
  | _ => Some (phrase +:+ " " +:+ description e +:+ ".")
  end.

(** The description of a level in the words of the specification: the
    contributions that are there, joined by single spaces. *)
Definition DescribeLevel_spec (l : MapLevel) : string :=
  match l with
  | Level Left Forward Right =>
      List.Join
        (omap id [contribution "On your left you notice" Left;
                  contribution "In front of you there's" Forward;
                  contribution "On your right you see" Right])
        " "
  end.

(** The list of available actions in the words of the specification: the
    ids of the entries whose gate is open, in declaration order, joined
    with a comma and a space. *)
Definition DescribeActions {E : Type} (table : Object (ElementAction E))
    (inv : list GameItems) : string :=
  List.Join (filter (λ kv, requiredItem_held inv kv.2) table).*1 ", ".

(** The text of the specification for entering an element: the inside
    description of a room, the description of an item. *)
Definition inside_text (e : MapElement) : string :=
  match e with
  | Room _ insideDescription _ => insideDescription
  | _ => description e
  end.

(** The text of a slot as the code joins it: empty for a wall. *)
Definition slot_text (phrase : string) (e : MapElement) : string :=
  default EmptyString (contribution phrase e).

(** The three slots of a level, and the interactive elements of the map by
    name. *)
Definition Left_of (l : MapLevel) : MapElement :=
  match l with Level e _ _ => e end.
Definition Forward_of (l : MapLevel) : MapElement :=
  match l with Level _ e _ => e end.
Definition Right_of (l : MapLevel) : MapElement :=
  match l with Level _ _ e => e end.

Definition keyRoom : MapElement := Left_of GameMap_0.
Definition spidersRoomSouth : MapElement := Forward_of GameMap_1.
Definition chest : MapElement := Right_of GameMap_2.
Definition spidersRoomEast : MapElement := Forward_of GameMap_4.

(** A player with the given health and inventory at the given position. *)
Definition player (h : Z) (p : Position) (inv : list GameItems) : PlayerState :=
  {| health := NumLit h; position := p; inventory := inv |}.

(** ** Play *)

(** The positions the map offers: its five levels and its four interactive
    elements. *)
Definition map_positions : list Position :=
  [AtLevel GameMap_0; AtLevel GameMap_1; AtLevel GameMap_2; AtLevel GameMap_3;
   AtLevel GameMap_4; AtElement keyRoom; AtElement spidersRoomSouth;
   AtElement chest; AtElement spidersRoomEast].

(** Where a move into a slot of the level [cur] takes the player: nowhere
    for a wall, to the target of a corridor, into a room or an item. *)
Definition arrive (cur : MapLevel) (target : MapElement) : Position :=
  match target with
  | Wall => AtLevel cur
  | Corridor _ next => AtLevel next
  | Room _ _ _ | Item _ _ => AtElement target
  end.

(** The registry entries that take a hit point. *)
Definition bites (key : ActionKey) : bool :=
  match key with
  | spidersRoomSouthDoor_runForDoor | spidersRoomEastDoor_runForDoor
  | chest_force => true
  | _ => false
  end.

(** One turn: the caller instantiates [Act] with the game state it holds and
    an action, whatever the checker created before, and goes on with the
    result when that is a game state with a player state. *)
Definition turn (gs gs' : GameState) : Prop :=
  ∃ created a, Act created gs a = Evaluated (TGame gs'.1 (Alive gs'.2)).

(** The game states a caller can hold, starting from [NewGame]. *)
Inductive reachable : GameState → Prop :=
| reachable_NewGame : reachable NewGame
| reachable_turn gs gs' : reachable gs → turn gs gs' → reachable gs'.

(** What holds of the player state of every game state a caller can hold
    (see [reachable]): one or two hit points, a position of the map, no item
    but the key and the mask, and the mask only with the key. *)
Definition in_play (s : PlayerState) : Prop :=
  (health s = NumLit 1 ∨ health s = NumLit 2)
  ∧ position s ∈ map_positions
  ∧ (∀ item, item ∈ inventory s → item = SmallKey ∨ item = SpiderMask)
  ∧ (SpiderMask ∈ inventory s → SmallKey ∈ inventory s).

(** The caller's loop on a list of actions: it goes on as long as [Act]
    returns a game state with a player state, and has no game state to hold
    otherwise. *)
Fixpoint play (created : list string) (gs : GameState) (acts : list string)
  : option GameState :=
  match acts with
  | [] => Some gs
  | a :: rest =>
      match Act created gs a with
      | Evaluated (TGame narr (Alive s)) => play created (narr, s) rest
      | _ => None
      end
  end.

(** ** Unions and tuples *)

Section union_facts.
Context {A : Type} `{EqDecision A}.
Implicit Types (u l : list A) (x p : A).

(** The defining equation of [ToTuple], as the source writes it. *)
Lemma ToTuple_unfold u :
  Union.ToTuple u =
  match Union.Pop u with
  | None => []
  | Some p => Union.ToTuple (Union.Popped u) ++ [p]
  end.
Proof.
  rewrite Union.ToTuple_equation_1.
  generalize (Equations.Prop.Logic.inspect (Union.Pop u)).
  intros [[q|] Ho]; simp ToTuple; rewrite Ho; reflexivity.
Qed.

Lemma Exclude_fresh l p : p ∉ l → Union.Exclude l p = l.
Proof.
  unfold Union.Exclude. induction l as [|x l IH]; intros Hp; [done|].
  apply not_elem_of_cons in Hp as [Hx Hl].
  rewrite filter_cons_True by congruence. by rewrite IH.
Qed.

Lemma Popped_snoc_fresh l p : p ∉ l → Union.Popped (l ++ [p]) = l.
Proof.
  intros Hp. unfold Union.Popped, Union.Pop. rewrite last_snoc.
  unfold Union.Exclude. rewrite filter_app, filter_singleton_False by tauto.
  rewrite app_nil_r. by apply Exclude_fresh.
Qed.

(** [ToTuple] reads the members of a union back in the order in which the
    union keeps them. *)
Lemma ToTuple_NoDup u : NoDup u → Union.ToTuple u = u.
Proof.
  induction u as [|p l IH] using rev_ind; intros Hu.
  - by rewrite ToTuple_unfold.
  - apply NoDup_app in Hu as (Hl & Hp & _).
    rewrite ToTuple_unfold. unfold Union.Pop. rewrite last_snoc.
    rewrite Popped_snoc_fresh; [by rewrite IH|].
    intros Hin. apply (Hp p Hin). by left.
Qed.

Lemma elem_of_foldl_add acc l x :
  x ∈ foldl Union.add acc l ↔ x ∈ acc ∨ x ∈ l.
Proof.
  revert acc. induction l as [|y l IH]; intros acc; cbn.
  - rewrite elem_of_nil. tauto.
  - rewrite IH, elem_of_cons. unfold Union.add.
    destruct (decide (y ∈ acc)) as [Hy|Hy].
    + split; [tauto|]. intros [?|[->|?]]; tauto.
    + rewrite elem_of_app, list_elem_of_singleton. tauto.
Qed.

Lemma NoDup_foldl_add acc l : NoDup acc → NoDup (foldl Union.add acc l).
Proof.
  revert acc. induction l as [|y l IH]; intros acc Hacc; cbn; [done|].
  apply IH. unfold Union.add. destruct (decide (y ∈ acc)); [done|].
  apply NoDup_app. split_and!; [done| |apply NoDup_singleton].
  intros x Hx ->%list_elem_of_singleton. done.
Qed.


Lemma elem_of_of_members created l x : x ∈ Union.of_members created l ↔ x ∈ l.
Proof.
  unfold Union.of_members.
  rewrite list_elem_of_filter, elem_of_foldl_add, elem_of_nil, elem_of_app.
  tauto.
Qed.

Lemma NoDup_of_members created l : NoDup (Union.of_members created l).
Proof. apply NoDup_filter, NoDup_foldl_add, NoDup_nil_2. Qed.




Lemma ToTuple_of_members created l :
  Union.ToTuple (Union.of_members created l) = Union.of_members created l.
Proof. apply ToTuple_NoDup, NoDup_of_members. Qed.
End union_facts.

(** ** Numbers *)

(** Inside the tables [Decrement] is the predecessor; one step past them it
    is [undefined], and below the table of negative numbers [never]. *)
Lemma Decrement_in_range (n : Z) :
  -19 ≤ n ≤ 21 → Num.Decrement (NumLit n) = NumLit (n - 1).
Proof.
  intros Hn.
  assert (Hcases : Forall (λ k, Num.Decrement (NumLit k) = NumLit (k - 1))
                     (seqZ (-19) 41))
    by (vm_compute; repeat constructor).
  rewrite Forall_forall in Hcases. apply Hcases.
  apply elem_of_seqZ. lia.
Qed.

Example Decrement_at_table_end : Num.Decrement (NumLit (-20)) = NumUndefined.
Proof. reflexivity. Qed.

Lemma Decrement_above_table (n : Z) :
  21 < n → Num.Decrement (NumLit n) = NumUndefined.
Proof.
  intros Hn. unfold Num.Decrement, Num.IsNegative.
  rewrite (proj2 (Z.ltb_ge n 0)) by lia.
  unfold Num.GetNum, Get.
  rewrite lookup_ge_None_2; [done|]. cbn. lia.
Qed.

Lemma Decrement_below_table (n : Z) :
  n < -20 → Num.Decrement (NumLit n) = NumNever.
Proof.
  intros Hn. unfold Num.Decrement, Num.IsNegative.
  rewrite (proj2 (Z.ltb_lt n 0)) by lia.
  unfold Num.Negate, Num.FromString, Num.IsNegative.
  rewrite !decide_False by lia.
  rewrite (proj2 (Z.ltb_ge (- n) 0)) by lia.
  unfold Get.
  rewrite lookup_ge_None_2; [done|]. cbn. lia.
Qed.

(** ** Available actions *)

Section actions_facts.
Context {E : Type}.
Implicit Types (table : Object (ElementAction E)) (gs : GameState).

Lemma extends_inventory_spec inv (a : ElementAction E) :
  extends_inventory inv a = true ↔ requiredItem_held inv a.
Proof.
  unfold extends_inventory, requiredItem_held. destruct a.1 as [item|].
  - rewrite bool_decide_eq_true. split.
    + intros Hin. right. by exists item.
    + intros [?|(i & [= <-] & ?)]; done.
  - split; [by left|done].
Qed.

Lemma elem_of_ListActions {created : list string} gs table id :
  id ∈ ListActions created gs table ↔
  ∃ a, (id, a) ∈ table ∧ requiredItem_held (inventory gs.2) a.
Proof.
  unfold ListActions, Obj.KeyWithValue.
  rewrite elem_of_of_members, list_elem_of_omap. split.
  - intros ([k a] & Hin & Hsel). cbn in Hsel.
    destruct (extends_inventory _ a) eqn:Hext; [|done].
    injection Hsel as ->. exists a. split; [done|].
    by apply extends_inventory_spec.
  - intros (a & Hin & Hheld). exists (id, a). split; [done|]. cbn.
    apply extends_inventory_spec in Hheld. by rewrite Hheld.
Qed.






Lemma ToTuple_ListActions {created : list string} gs table :
  Union.ToTuple (ListActions created gs table) = ListActions created gs table.
Proof. apply ToTuple_of_members. Qed.
End actions_facts.

(** ** Evaluating [Act] *)

Lemma ListActions_level {created : list string} gs a :
  a ∈ ListActions created gs level_actions ↔ a ∈ ["left"; "forward"; "right"].
Proof.
  rewrite elem_of_ListActions. unfold level_actions. split.
  - intros (entry & Hin & _). rewrite !elem_of_cons, elem_of_nil in Hin.
    destruct Hin as [[= -> _]|[[= -> _]|[[= -> _]|[]]]]; repeat constructor.
  - rewrite !elem_of_cons, elem_of_nil.
    intros [->|[->|[->|[]]]]; eexists (None, _); (split; [|by left]);
      repeat constructor.
Qed.

Lemma Act_legal {created : list string} gs a :
  extends_PlayerState gs.2 = true →
  a ∈ ListActions_here created gs →
  Act created gs a = Evaluated (Act_body created gs a).
Proof.
  intros Hext Hin. unfold Act. rewrite Hext. cbn.
  by rewrite bool_decide_eq_true_2.
Qed.

Lemma Act_illegal {created : list string} gs a :
  extends_PlayerState gs.2 = true →
  a ∉ ListActions_here created gs →
  Act created gs a = Rejected (ConstraintNotSatisfied "TAction").
Proof.
  intros Hext Hout. unfold Act. rewrite Hext. cbn.
  by rewrite bool_decide_eq_false_2.
Qed.

Lemma prop_Some_elem_of {V : Type} (TObj : Object V) k v :
  prop TObj k = Some v → (k, v) ∈ TObj.
Proof.
  induction TObj as [|[k' v'] TObj IH]; cbn; [done|].
  destruct (decide (k' = k)) as [->|Hne].
  - intros [= ->]. by left.
  - intros Hp. right. by apply IH.
Qed.

Lemma prop_None_not_key {V : Type} (TObj : Object V) k :
  prop TObj k = None ↔ k ∉ TObj.*1.
Proof.
  induction TObj as [|[k' v'] TObj IH]; cbn.
  - split; [intros _; apply not_elem_of_nil|done].
  - rewrite not_elem_of_cons. destruct (decide (k' = k)) as [->|Hne].
    + split; [done|]. intros [Hk _]. done.
    + rewrite IH. split; [|tauto]. intros Hk. split; [congruence|done].
Qed.

(** A direction action at a level is legal, and [Act] is [Move] there. *)
Lemma slot_direction cur a target :
  slot cur a = Some target →
  ∃ d, prop level_actions a = Some (None, d) ∧ Get (level cur) d = Some target.
Proof.
  destruct cur as [l f r]. unfold slot.
  repeat case_decide; subst; intros [= <-].
  - by exists 0%N.
  - by exists 1%N.
  - by exists 2%N.
Qed.

Lemma slot_legal {created : list string} gs cur a target :
  position gs.2 = AtLevel cur →
  slot cur a = Some target →
  a ∈ ListActions_here created gs.
Proof.
  intros Hpos Hslot. unfold ListActions_here. rewrite Hpos, ListActions_level.
  destruct cur as [l f r]. unfold slot in Hslot.
  repeat case_decide; subst; try done; repeat constructor.
Qed.

Lemma Act_navigation {created : list string} gs cur a target :
  extends_PlayerState gs.2 = true →
  position gs.2 = AtLevel cur →
  slot cur a = Some target →
  Act created gs a = Evaluated (Move created gs a cur).
Proof.
  intros Hext Hpos Hslot. rewrite Act_legal; [|done|by eapply slot_legal].
  unfold Act_body. by rewrite Hpos.
Qed.

(** [Act] inside an element whose action table has the action. *)
Lemma Act_interaction {created : list string} gs a e req key :
  extends_PlayerState gs.2 = true →
  position gs.2 = AtElement e →
  a ∈ ListActions_here created gs →
  prop (actions e) a = Some (req, key) →
  Act created gs a =
  Evaluated (if extends_GameState (Actions gs.2 key)
             then CheckActionResult (Actions gs.2 key)
             else TNever).
Proof.
  intros Hext Hpos Hin Hprop. rewrite Act_legal by done.
  unfold Act_body. rewrite Hpos.
  assert (InteractiveMapElement e = true) as ->
    by (destruct e; cbn in Hprop |- *; done).
  by rewrite Hprop.
Qed.

(** ** Descriptions of levels *)

(** C3, as the code has it: [DescribeMapLevel] joins the texts of all three
    slots, left, forward, right, with a single space between neighbours; the
    text of a wall is the empty string and the text of any other element is
    its direction phrase, a space, its description and a full stop.  A wall
    therefore leaves its separating space in the result. *)
Theorem DescribeMapLevel_joins_all_slots (l f r : MapElement) :
  DescribeMapLevel (Level l f r)
  = slot_text "On your left you notice" l +:+ " "
      +:+ slot_text "In front of you there's" f +:+ " "
      +:+ slot_text "On your right you see" r.
Proof. destruct l, f, r; reflexivity. Qed.

(** C3 fails as stated: level 0 has a wall on the right, and its description
    ends with the space that separates the wall's empty text, where joining
    only the contributions that are there gives no trailing space. *)
Lemma DescribeMapLevel_trailing_space :
  DescribeMapLevel GameMap_0
  = "On your left you notice a half opened door. In front of you there's a dark and humid corridor.. "
  ∧ DescribeLevel_spec GameMap_0
  = "On your left you notice a half opened door. In front of you there's a dark and humid corridor.."
  ∧ DescribeMapLevel GameMap_0 ≠ DescribeLevel_spec GameMap_0.
Proof. split_and!; [reflexivity..|discriminate]. Qed.

(** ** Navigation *)

(** C6. For every state at a level and every direction whose slot is a
    wall, [Act] returns "You can't go this way. " followed by the description
    of the current level, together with the player state of the input:
    position, health and inventory are the same. *)
Theorem Act_wall_unchanged (created : list string)
    (gs : GameState) (cur : MapLevel) (a : string) :
  extends_PlayerState gs.2 = true →
  position gs.2 = AtLevel cur →
  slot cur a = Some Wall →
  Act created gs a
  = Evaluated
      (TGame ("You can't go this way. " +:+ DescribeMapLevel cur) (Alive gs.2)).
Proof.
  intros Hext Hpos Hslot. rewrite (Act_navigation gs cur a Wall) by done.
  apply slot_direction in Hslot as (d & Hd & Hget).
  unfold Move. by rewrite Hd, Hget.
Qed.

Lemma Act_wall_unchanged_witness :
  Act [] NewGame "right"
  = Evaluated
      (TGame ("You can't go this way. " +:+ DescribeMapLevel GameMap_0)
         (Alive NewState)).
Proof. apply (Act_wall_unchanged [] NewGame GameMap_0 "right"); reflexivity. Defined.

(** ** The new game *)

(** C9. [NewGame] has a narration that starts with "Welcome Adventurer" and
    the player state with health 2, an empty inventory and the first level of
    the map as position. *)
Theorem NewGame_initial_state :
  (∃ rest, NewGame.1 = "Welcome Adventurer" +:+ rest)
  ∧ NewGame.2
    = {| health := NumLit 2; position := AtLevel GameMap_0; inventory := [] |}
  ∧ GameMap !! 0%nat = Some GameMap_0.
Proof. split_and!; [eexists|..]; reflexivity. Qed.

(** C4, as the code has it: moving into a room gives the room's inside
    description, then ". Your available actions are: " and the available
    actions joined with ", "; moving into an item gives "You reach for the ",
    the item's description, and the same ending.  In both cases the new
    position is the element itself and health and inventory are kept. *)
Theorem Act_enter_element (created : list string)
    (gs : GameState) (cur : MapLevel) (a : string)
    (target : MapElement) :
  extends_PlayerState gs.2 = true →
  position gs.2 = AtLevel cur →
  slot cur a = Some target →
  (∀ d inside acts, target = Room d inside acts →
     Act created gs a
     = Evaluated
         (TGame
            (inside +:+ ". Your available actions are: "
               +:+ List.Join (Union.ToTuple (ListActions created gs acts)) ", ")
            (Alive (Update_position gs.2 (AtElement target)))))
  ∧ (∀ d acts, target = Item d acts →
     Act created gs a
     = Evaluated
         (TGame
            ("You reach for the " +:+ d +:+ ". Your available actions are: "
               +:+ List.Join (Union.ToTuple (ListActions created gs acts)) ", ")
            (Alive (Update_position gs.2 (AtElement target))))).
Proof.
  intros Hext Hpos Hslot. rewrite (Act_navigation gs cur a target) by done.
  apply slot_direction in Hslot as (dir & Hdir & Hget).
  unfold Move. rewrite Hdir, Hget.
  split; intros; subst target; reflexivity.
Qed.

Lemma Act_enter_element_witness :
  Act [] NewGame "left"
  = Evaluated
      (TGame
         "Opening the door you find youserlf in a room with a small desk. The desk has one drawer. Your available actions are: Open the drawer, Exit the room"
         (Alive (player 2 (AtElement keyRoom) []))).
Proof.
  apply (proj1 (Act_enter_element [] NewGame GameMap_0 "left" keyRoom
                  eq_refl eq_refl eq_refl)
           "a half opened door"
           "Opening the door you find youserlf in a room with a small desk. The desk has one drawer"
           [("Open the drawer", (None, keyRoom_key));
            ("Exit the room", (None, keyRoom_exit))]).
  reflexivity.
Defined.

(** C4 fails as stated: reaching for the chest from level 2 gives "You
    reach for the " before the description of the item and a full stop after
    it, and entering the key room from level 0 gives a full stop after the
    inside description; neither narration is the element's text followed
    directly by " Your available actions are: " and the list. *)
Lemma Act_enter_element_extra_text :
  let at_chest := (EmptyString, player 2 (AtLevel GameMap_2) []) in
  Act [] at_chest "right"
  = Evaluated
      (TGame
         "You reach for the Locked Chest. Your available actions are: Force it open, Leave it"
         (Alive (player 2 (AtElement chest) [])))
  ∧ inside_text chest +:+ " Your available actions are: "
      +:+ DescribeActions (actions chest) (inventory at_chest.2)
    = "Locked Chest Your available actions are: Force it open, Leave it"
  ∧ (∀ s' : FinalState,
       Act [] at_chest "right"
       ≠ Evaluated
           (TGame
              (inside_text chest +:+ " Your available actions are: "
                 +:+ DescribeActions (actions chest) (inventory at_chest.2))
              s'))
  ∧ inside_text keyRoom +:+ " Your available actions are: "
      +:+ DescribeActions (actions keyRoom) (inventory NewGame.2)
    = "Opening the door you find youserlf in a room with a small desk. The desk has one drawer Your available actions are: Open the drawer, Exit the room"
  ∧ ∀ s' : FinalState,
      Act [] NewGame "left"
      ≠ Evaluated
          (TGame
             (inside_text keyRoom +:+ " Your available actions are: "
                +:+ DescribeActions (actions keyRoom) (inventory NewGame.2))
             s').
Proof.
  split_and!; try reflexivity; intros s'; vm_compute; discriminate.
Qed.

(** ** Available actions, as a claim *)




(** ** Interaction *)

Lemma extends_GameState_NumLit narr s' n :
  health s' = NumLit n → extends_GameState (narr, EffectState s') = true.
Proof.
  intros Hh. unfold extends_GameState, extends_PlayerState. cbn.
  rewrite Hh. by apply bool_decide_eq_true_2.
Qed.

Lemma Move_not_Null {created : list string}
    gs a cur narr : Move created gs a cur ≠ TGame narr Null.
Proof.
  unfold Move. destruct (prop level_actions a) as [[req d]|]; [|done].
  destruct (Get (level cur) d) as [[]|]; done.
Qed.

(** A key that satisfies the constraint of [TAction] is a key of the action
    table of the current element: the lookup in [Act_body] finds it. *)
Lemma ListActions_here_prop {created : list string} gs a e :
  position gs.2 = AtElement e →
  a ∈ ListActions_here created gs →
  is_Some (prop (actions e) a).
Proof.
  intros Hpos. unfold ListActions_here. rewrite Hpos.
  intros (entry & Hin & _)%elem_of_ListActions.
  destruct (prop (actions e) a) eqn:Hprop; [done|].
  apply prop_None_not_key in Hprop. exfalso. apply Hprop.
  apply list_elem_of_fmap. by exists (a, entry).
Qed.

Lemma Act_interaction_to_level_aux {created : list string}
    gs a e req key narr s' l n :
  extends_PlayerState gs.2 = true →
  position gs.2 = AtElement e →
  a ∈ ListActions_here created gs →
  prop (actions e) a = Some (req, key) →
  Actions gs.2 key = (narr, EffectState s') →
  position s' = AtLevel l →
  health s' = NumLit n →
  n ≠ 0 →
  Act created gs a = Evaluated (TGame (narr +:+ " " +:+ DescribeMapLevel l) (Alive s')).
Proof.
  intros Hext Hpos Hin Hprop Heff Hl Hh Hn.
  rewrite (Act_interaction gs a e req key) by done.
  rewrite Heff, (extends_GameState_NumLit narr s' n) by done.
  unfold CheckActionResult. cbn. rewrite Hh, Hl. cbn.
  by rewrite bool_decide_eq_false_2.
Qed.

(** C1, as the code has it: inside a room or an item, when the player state
    the action results in has health 0, [Act] returns the narration of the
    effect followed by " You are Dead - Game Over!" and the null state,
    whether or not the effect touched the health.  At a level [Act] is [Move],
    which is not post-processed and never returns the null state. *)
Theorem Act_death_check_after_interaction (created : list string)
    (gs : GameState) (a : string) :
  extends_PlayerState gs.2 = true →
  a ∈ ListActions_here created gs →
  (∀ e req key narr s',
     position gs.2 = AtElement e →
     prop (actions e) a = Some (req, key) →
     Actions gs.2 key = (narr, EffectState s') →
     health s' = NumLit 0 →
     Act created gs a = Evaluated (TGame (narr +:+ " You are Dead - Game Over!") Null))
  ∧ (∀ cur,
     position gs.2 = AtLevel cur →
     Act created gs a = Evaluated (Move created gs a cur)
     ∧ ∀ narr, Act created gs a ≠ Evaluated (TGame narr Null)).
Proof.
  intros Hext Hin. split.
  - intros e req key narr s' Hpos Hprop Heff Hh.
    rewrite (Act_interaction gs a e req key) by done.
    rewrite Heff, (extends_GameState_NumLit narr s' 0) by done.
    unfold CheckActionResult. cbn. by rewrite Hh.
  - intros cur Hpos.
    assert (Act created gs a = Evaluated (Move created gs a cur)) as ->.
    { rewrite Act_legal by done. unfold Act_body. by rewrite Hpos. }
    split; [done|]. intros narr [= Hmove]. by apply Move_not_Null in Hmove.
Qed.

Lemma Act_death_check_after_interaction_witness :
  Act [] (EmptyString, player 1 (AtElement chest) []) "Force it open"
  = Evaluated
      (TGame
         ("As you rattle the chest's lock, a spider comes out of nowhere and bites you. "
            +:+ " You are Dead - Game Over!")
         Null).
Proof.
  apply (proj1 (Act_death_check_after_interaction []
                  (EmptyString, player 1 (AtElement chest) []) "Force it open"
                  eq_refl ltac:(by apply (bool_decide_unpack _); vm_compute))
           chest None chest_force
           "As you rattle the chest's lock, a spider comes out of nowhere and bites you. "
           (player 0 (AtLevel GameMap_2) []));
    reflexivity.
Defined.

(** C1 fails as stated: with health 0 at level 0, going forward results in a
    player state with health 0, and [Act] returns it alive, the narration being
    the description of level 1 without the game-over text. *)
Lemma Act_navigation_no_death_check :
  Act [] (EmptyString, player 0 (AtLevel GameMap_0) []) "forward"
  = Evaluated
      (TGame (DescribeMapLevel GameMap_1)
         (Alive (player 0 (AtLevel GameMap_1) [])))
  ∧ health (player 0 (AtLevel GameMap_1) []) = NumLit 0
  ∧ ∀ narr,
      Act [] (EmptyString, player 0 (AtLevel GameMap_0) []) "forward"
      ≠ Evaluated (TGame (narr +:+ " You are Dead - Game Over!") Null).
Proof. split_and!; [reflexivity..|]. intros narr. vm_compute. discriminate. Qed.

(** C5, as the code has it: after an interaction whose resulting player
    state has a number other than 0 as health and a level as position, [Act]
    returns the narration of the effect, a single space and the description of
    that level, with the resulting player state.  For "Open the drawer" in the
    key room the narration of the effect is the pickup text, the level is
    level 0 and the inventory is the old one with "Small Key" in front. *)
Theorem Act_interaction_back_at_level (created : list string)
    (gs : GameState) (a : string)
    (e : MapElement) (req : option GameItems) (key : ActionKey)
    (narr : string) (s' : PlayerState) (l : MapLevel) (n : Z) :
  extends_PlayerState gs.2 = true →
  position gs.2 = AtElement e →
  a ∈ ListActions_here created gs →
  prop (actions e) a = Some (req, key) →
  Actions gs.2 key = (narr, EffectState s') →
  position s' = AtLevel l →
  health s' = NumLit n →
  n ≠ 0 →
  Act created gs a = Evaluated (TGame (narr +:+ " " +:+ DescribeMapLevel l) (Alive s'))
  ∧ (e = keyRoom → a = "Open the drawer" →
     narr = "You find a small key! You put in your pocket and leave the room, leaving the door open as you found."
     ∧ l = GameMap_0
     ∧ inventory s' = SmallKey :: inventory gs.2).
Proof.
  intros Hext Hpos Hin Hprop Heff Hl Hh Hn. split.
  - by apply (Act_interaction_to_level_aux gs a e req key narr s' l n).
  - intros -> ->. cbn in Hprop. injection Hprop as <- <-.
    cbn in Heff. injection Heff as <- <-. cbn in Hl. injection Hl as <-. done.
Qed.

Lemma Act_interaction_back_at_level_witness :
  Act [] (EmptyString, player 2 (AtElement keyRoom) []) "Open the drawer"
  = Evaluated
      (TGame
         ("You find a small key! You put in your pocket and leave the room, leaving the door open as you found."
            +:+ " " +:+ DescribeMapLevel GameMap_0)
         (Alive (player 2 (AtLevel GameMap_0) [SmallKey]))).
Proof.
  apply (proj1 (Act_interaction_back_at_level []
                  (EmptyString, player 2 (AtElement keyRoom) []) "Open the drawer"
                  keyRoom None keyRoom_key
                  "You find a small key! You put in your pocket and leave the room, leaving the door open as you found."
                  (player 2 (AtLevel GameMap_0) [SmallKey]) GameMap_0 2
                  eq_refl eq_refl
                  ltac:(by apply (bool_decide_unpack _); vm_compute)
                  eq_refl eq_refl eq_refl eq_refl ltac:(lia))).
Defined.

(** C5 fails as stated: with health 1 in the spiders' room of level 1,
    "Reach for the other door" results in a player state whose position is
    level 1, yet [Act] returns the game-over text and the null state, not the
    description of level 1 and the resulting state. *)
Lemma Act_back_at_level_but_dead :
  let gs := (EmptyString, player 1 (AtElement spidersRoomSouth) []) in
  let s' := player 0 (AtLevel GameMap_1) [] in
  ∃ narr,
    Actions gs.2 spidersRoomSouthDoor_runForDoor = (narr, EffectState s')
    ∧ position s' = AtLevel GameMap_1
    ∧ Act [] gs "Reach for the other door"
      = Evaluated (TGame (narr +:+ " You are Dead - Game Over!") Null)
    ∧ Act [] gs "Reach for the other door"
      ≠ Evaluated (TGame (narr +:+ " " +:+ DescribeMapLevel GameMap_1) (Alive s')).
Proof.
  eexists. split_and!; [reflexivity..|]. vm_compute. discriminate.
Qed.

(** C7, as the code has it: when the effect of a legal action is the
    terminal entry of the registry, whose second place is [never], [Act]
    returns the narration of that entry, the fixed win text, and [never] in the
    place of the player state; the input player state is not in the
    result. *)
Theorem Act_terminal_effect (created : list string)
    (gs : GameState) (a : string) (e : MapElement)
    (req : option GameItems) (key : ActionKey) (narr : string) :
  extends_PlayerState gs.2 = true →
  position gs.2 = AtElement e →
  a ∈ ListActions_here created gs →
  prop (actions e) a = Some (req, key) →
  Actions gs.2 key = (narr, EffectNever) →
  Act created gs a = Evaluated (TGame narr Never)
  ∧ key = spidersRoom_putMask
  ∧ narr = "As soon as you put on the mask, the spiders gather around you, and as you move, they spread out making way for you. You focus your efforts in investigating the room and find a hidden passage that leads you... to the lost treasure of Anders Hejlsberg! You did it adventurer, now go check the code.".
Proof.
  intros Hext Hpos Hin Hprop Heff. split.
  - rewrite (Act_interaction gs a e req key) by done. by rewrite Heff.
  - destruct key; cbn in Heff; try discriminate Heff.
    by injection Heff as <-.
Qed.

Lemma Act_terminal_effect_witness :
  Act [] (EmptyString, player 2 (AtElement spidersRoomEast) [SpiderMask; SmallKey])
    "Put on the mask"
  = Evaluated (TGame (Actions NewState spidersRoom_putMask).1 Never).
Proof.
  apply (proj1 (Act_terminal_effect []
                  (EmptyString,
                   player 2 (AtElement spidersRoomEast) [SpiderMask; SmallKey])
                  "Put on the mask" spidersRoomEast (Some SpiderMask)
                  spidersRoom_putMask (Actions NewState spidersRoom_putMask).1
                  eq_refl eq_refl
                  ltac:(by apply (bool_decide_unpack _); vm_compute)
                  eq_refl eq_refl)).
Defined.

(** C7 fails as stated: in the spiders' room of level 1, holding the mask,
    "Put on the mask" returns [never] in the place of the player state, not
    the input player state. *)
Lemma Act_terminal_state_is_never :
  let s := player 2 (AtElement spidersRoomSouth) [SpiderMask; SmallKey] in
  (∃ narr, Act [] (EmptyString, s) "Put on the mask" = Evaluated (TGame narr Never))
  ∧ ∀ narr, Act [] (EmptyString, s) "Put on the mask" ≠ Evaluated (TGame narr (Alive s)).
Proof.
  split; [eexists; reflexivity|]. intros narr. vm_compute. discriminate.
Qed.

(** C10, as the code has it: every entry of the registry other than the
    terminal one updates the position to level 0, 1 or 2 of the map; so after a
    legal interaction with such an effect, when the resulting health is a
    number other than 0, the returned player is at that level and the
    description of the level is appended to the narration of the effect. *)
Theorem Actions_lead_back_to_a_level (created : list string)
    (s : PlayerState) (key : ActionKey) :
  key ≠ spidersRoom_putMask →
  ∃ s' l,
    (Actions s key).2 = EffectState s'
    ∧ position s' = AtLevel l
    ∧ l ∈ [GameMap_0; GameMap_1; GameMap_2]
    ∧ ∀ narration a e req n,
        extends_PlayerState s = true →
        position s = AtElement e →
        a ∈ ListActions_here created (narration, s) →
        prop (actions e) a = Some (req, key) →
        health s' = NumLit n →
        n ≠ 0 →
        Act created (narration, s) a
        = Evaluated
            (TGame ((Actions s key).1 +:+ " " +:+ DescribeMapLevel l) (Alive s')).
Proof.
  intros Hkey.
  destruct (Actions s key) as [narr eff] eqn:Heff.
  assert (∃ s' l, eff = EffectState s' ∧ position s' = AtLevel l
                  ∧ l ∈ [GameMap_0; GameMap_1; GameMap_2])
    as (s' & l & -> & Hl & Hmap).
  { destruct key; try done; cbn in Heff; injection Heff as <- <-;
      eexists _, _; (split_and!; [reflexivity..|]); cbn;
      repeat constructor. }
  exists s', l. split_and!; [done..|].
  intros narration a e req n Hext Hpos Hin Hprop Hh Hn.
  by apply (Act_interaction_to_level_aux (narration, s) a e req key narr s' l n).
Qed.

Lemma Actions_lead_back_to_a_level_witness :
  Act [] (EmptyString, player 2 (AtElement chest) [SmallKey]) "Use the Small key"
  = Evaluated
      (TGame
         ((Actions NewState chest_unlock).1 +:+ " " +:+ DescribeMapLevel GameMap_2)
         (Alive (player 2 (AtLevel GameMap_2) [SpiderMask; SmallKey]))).
Proof.
  destruct (Actions_lead_back_to_a_level []
              (player 2 (AtElement chest) [SmallKey]) chest_unlock
              ltac:(discriminate))
    as (s' & l & Heff & Hl & _ & Hact).
  cbn in Heff. injection Heff as <-.
  cbn in Hl. injection Hl as <-.
  apply (Hact EmptyString "Use the Small key" chest (Some SmallKey) 2);
    [reflexivity|reflexivity| |reflexivity|reflexivity|lia].
  by apply (bool_decide_unpack _); vm_compute.
Defined.

(** C10 fails as stated: with health 1 in the spiders' room of level 4,
    "Exit through the other door" has an effect that is not terminal and sets
    the position to level 1, yet [Act] returns the null state, and the narration
    is the effect's text with the game-over text, not with the description of
    level 1. *)
Lemma Act_level_description_not_appended :
  let gs := (EmptyString, player 1 (AtElement spidersRoomEast) []) in
  ∃ narr s',
    Actions gs.2 spidersRoomEastDoor_runForDoor = (narr, EffectState s')
    ∧ position s' = AtLevel GameMap_1
    ∧ Act [] gs "Exit through the other door"
      = Evaluated (TGame (narr +:+ " You are Dead - Game Over!") Null)
    ∧ ∀ final,
        Act [] gs "Exit through the other door"
        ≠ Evaluated (TGame (narr +:+ " " +:+ DescribeMapLevel GameMap_1) final).
Proof.
  eexists _, _. split_and!; [reflexivity..|]. intros final. vm_compute. discriminate.
Qed.

(** ** Illegal actions *)

Lemma NoDup_keys_functional {V : Type} (TObj : Object V) k v1 v2 :
  NoDup TObj.*1 → (k, v1) ∈ TObj → (k, v2) ∈ TObj → v1 = v2.
Proof.
  induction TObj as [|[k' v'] TObj IH]; cbn; [by intros _ ?%elem_of_nil|].
  intros [Hk' Hnd]%NoDup_cons [[= -> ->]|H1]%elem_of_cons [[= ?]|H2]%elem_of_cons.
  - done.
  - exfalso. apply Hk'. apply list_elem_of_fmap. by exists (k', v2).
  - subst. exfalso. apply Hk'. apply list_elem_of_fmap. by exists (k', v1).
  - by apply IH.
Qed.

(** C8. For every state and every action id that is not valid for the
    current position, a key other than the three directions at a level, a key
    the action table of the current element does not have, or a key whose
    required item is not in the inventory, the instantiation of [Act] is
    refused: the constraint of [TAction] is not satisfied.  It evaluates to no
    game state. *)
Theorem Act_rejects_invalid_action (created : list string)
    (gs : GameState) (a : string) :
  extends_PlayerState gs.2 = true →
  (∃ l, position gs.2 = AtLevel l ∧ a ∉ ["left"; "forward"; "right"])
  ∨ (∃ e, position gs.2 = AtElement e ∧ a ∉ (actions e).*1)
  ∨ (∃ e item key,
       position gs.2 = AtElement e
       ∧ NoDup (actions e).*1
       ∧ prop (actions e) a = Some (Some item, key)
       ∧ item ∉ inventory gs.2) →
  Act created gs a = Rejected (ConstraintNotSatisfied "TAction").
Proof.
  intros Hext Hcase. apply Act_illegal; [done|].
  unfold ListActions_here.
  destruct Hcase as [(l & -> & Hdir)|[(e & -> & Hkey)|(e & item & key & -> & Hnd & Hprop & Hitem)]].
  - by rewrite ListActions_level.
  - intros (entry & Hin & _)%elem_of_ListActions. apply Hkey.
    apply list_elem_of_fmap. by exists (a, entry).
  - intros (entry & Hin & Hheld)%elem_of_ListActions.
    apply prop_Some_elem_of in Hprop.
    rewrite (NoDup_keys_functional _ _ _ _ Hnd Hin Hprop) in Hheld.
    destruct Hheld as [?|(i & [= <-] & ?)]; done.
Qed.

Lemma Act_rejects_invalid_action_witness :
  Act [] (EmptyString, player 2 (AtElement spidersRoomSouth) [SmallKey])
    "Put on the mask"
  = Rejected (ConstraintNotSatisfied "TAction").
Proof.
  apply (Act_rejects_invalid_action []
           (EmptyString, player 2 (AtElement spidersRoomSouth) [SmallKey])
           "Put on the mask" eq_refl).
  right. right. exists spidersRoomSouth, SpiderMask, spidersRoom_putMask.
  split_and!; [reflexivity| |reflexivity|].
  - by apply (bool_decide_unpack _); vm_compute.
  - by apply (bool_decide_unpack _); vm_compute.
Defined.

(** * Further properties of the code *)

(** ** Tuples *)

(** The two ends of a tuple.  [Pop] and [Popped] undo [Pushed], [Shift]
    and [Shifted] undo [Unshift]; a tuple that has a last member is its
    [Popped] with that member pushed, one that has a first member is its
    [Shifted] with that member put in front; the empty tuple has [undefined]
    as first and as last member and is its own [Popped] and [Shifted]. *)
Theorem List_ends_round_trip {A : Type} (t : list A) (x : A) :
  List.Pop (List.Pushed t x) = Some x
  ∧ List.Popped (List.Pushed t x) = t
  ∧ match List.Pop t with
    | Some y => List.Pushed (List.Popped t) y = t
    | None => t = [] ∧ List.Popped t = []
    end
  ∧ List.Shift (List.Unshift t x) = Some x
  ∧ List.Shifted (List.Unshift t x) = t
  ∧ match List.Shift t with
    | Some y => List.Unshift (List.Shifted t) y = t
    | None => t = [] ∧ List.Shifted t = []
    end.
Proof.
  unfold List.Pushed. split_and!; [| | |done|done|by destruct t].
  - destruct t; [done|]. cbn [app List.Pop]. by rewrite app_comm_cons, last_snoc.
  - destruct t; [done|]. cbn [app List.Popped].
    by rewrite app_comm_cons, removelast_last.
  - destruct t as [|a t]; [done|]. unfold List.Pop, List.Popped.
    destruct (last (a :: t)) as [y|] eqn:Hlast.
    + apply last_Some in Hlast as [l' ->]. by rewrite removelast_last.
    + by apply last_None in Hlast.
Qed.

Lemma ConcatAll_cons {A : Type} (x : list (list A)) (a : list A) :
  List.ConcatAll (a :: x) = a ++ concat x.
Proof.
  revert a. induction x as [|b x IH]; intros a; simp ConcatAll.
  - cbn. by rewrite app_nil_r.
  - rewrite IH. unfold List.Concat. cbn. by rewrite app_assoc.
Qed.

(** [ConcatAll], which folds [Concat] from the left two tuples at a time, is
    the concatenation of all the tuples in their order. *)
Theorem List_ConcatAll_flattens {A : Type} (ts : list (list A)) :
  List.ConcatAll ts = concat ts
  ∧ length (List.ConcatAll ts) = sum_list (length <$> ts).
Proof.
  assert (Heq : List.ConcatAll ts = concat ts).
  { destruct ts as [|a x]; [done|]. apply ConcatAll_cons. }
  split; [done|]. rewrite Heq. clear Heq.
  induction ts as [|a x IH]; [done|].
  change (concat (a :: x)) with (a ++ concat x).
  rewrite length_app, IH. reflexivity.
Qed.

Section filter_facts.
Context {A : Type} `{EqDecision A}.
Implicit Types (t : list A) (v x : A).




End filter_facts.

(** ** Unions *)

Section union_tuple_facts.
Context {A : Type} `{EqDecision A}.
Implicit Types (u l : list A) (x p : A).




End union_tuple_facts.

(** ** Objects *)




(** ** Joining *)

Lemma append_cons c s1 s2 : String c s1 +:+ s2 = String c (s1 +:+ s2).
Proof. reflexivity. Qed.

Lemma append_assoc s1 s2 s3 : (s1 +:+ s2) +:+ s3 = s1 +:+ s2 +:+ s3.
Proof.
  induction s1 as [|c s1 IH]; [done|]. rewrite !append_cons. by rewrite IH.
Qed.

Lemma Join_cons_cons h h' t d :
  List.Join (h :: h' :: t) d = h +:+ d +:+ List.Join (h' :: t) d.
Proof. reflexivity. Qed.

(** [Join] of two tuples put together is the [Join] of the first, the
    delimiter and the [Join] of the second, when neither is empty: the
    delimiter stands between neighbours only, never in front or at the
    end. *)
Theorem List_Join_app (t1 t2 : list string) (d : string) :
  t1 ≠ [] →
  t2 ≠ [] →
  List.Join (t1 ++ t2) d = List.Join t1 d +:+ d +:+ List.Join t2 d.
Proof.
  intros H1 H2. induction t1 as [|h t1 IH]; [done|].
  destruct t1 as [|h' t1].
  - destruct t2 as [|g t2]; [done|]. reflexivity.
  - change ((h :: h' :: t1) ++ t2) with (h :: h' :: (t1 ++ t2)).
    rewrite !Join_cons_cons. rewrite !append_assoc. do 2 f_equal.
    by apply IH.
Qed.

Lemma List_Join_app_witness :
  List.Join (["left"; "forward"] ++ ["right"]) ", "
  = List.Join ["left"; "forward"] ", " +:+ ", " +:+ List.Join ["right"] ", ".
Proof. apply List_Join_app; discriminate. Defined.

Lemma length_append s1 s2 :
  String.length (s1 +:+ s2) = (String.length s1 + String.length s2)%nat.
Proof.
  induction s1 as [|c s1 IH]; [done|]. rewrite append_cons. cbn. by rewrite IH.
Qed.

(** The length of a [Join] is the length of the members and of one delimiter
    between every two neighbours; the [Join] of the empty tuple is the empty
    string and that of a single member is the member. *)
Theorem List_Join_length (t : list string) (d : string) :
  String.length (List.Join t d)
  = (sum_list (String.length <$> t) + (length t - 1) * String.length d)%nat
  ∧ List.Join [] d = EmptyString
  ∧ ∀ x, List.Join [x] d = x.
Proof.
  split_and!; [|done..].
  induction t as [|h t IH]; [done|]. destruct t as [|h' t].
  - cbn. lia.
  - rewrite Join_cons_cons, !length_append, IH.
    rewrite !fmap_cons. cbn [sum_list sum_list_with length]. unfold id.
    replace (S (length t) - 1)%nat with (length t) by lia.
    replace (S (S (length t)) - 1)%nat with (S (length t)) by lia. lia.
Qed.

(** ** Numbers, again *)

Lemma Increment_in_range (n : Z) :
  -20 ≤ n ≤ 19 → Num.Increment (NumLit n) = NumLit (n + 1).
Proof.
  intros Hn.
  assert (Hcases : Forall (λ k, Num.Increment (NumLit k) = NumLit (k + 1))
                     (seqZ (-20) 40))
    by (vm_compute; repeat constructor).
  rewrite Forall_forall in Hcases. apply Hcases.
  apply elem_of_seqZ. lia.
Qed.

(** [Decrement] and [Increment] in closed form: the predecessor from -19 to
    21, the successor from -20 to 19; past the end of the table that is
    indexed the result is [undefined], and for a number below -20, which
    [Negate] cannot find among its keys, it is [never]. *)
Theorem Num_Decrement_Increment_closed_form (n : Z) :
  Num.Decrement (NumLit n)
  = (if decide (-19 ≤ n ≤ 21) then NumLit (n - 1)
     else if decide (n < -20) then NumNever else NumUndefined)
  ∧ Num.Increment (NumLit n)
    = (if decide (-20 ≤ n ≤ 19) then NumLit (n + 1)
       else if decide (n < -20) then NumNever else NumUndefined).
Proof.
  split.
  - destruct (decide (-19 ≤ n ≤ 21)); [by apply Decrement_in_range|].
    destruct (decide (n < -20)); [by apply Decrement_below_table|].
    destruct (decide (n = -20)) as [->|]; [done|].
    apply Decrement_above_table. lia.
  - destruct (decide (-20 ≤ n ≤ 19)); [by apply Increment_in_range|].
    unfold Num.Increment, Num.IsNegative.
    destruct (decide (n < -20)).
    + rewrite (proj2 (Z.ltb_lt n 0)) by lia.
      unfold Num.Negate, Num.FromString, Num.IsNegative.
      rewrite !decide_False by lia.
      rewrite (proj2 (Z.ltb_ge (- n) 0)) by lia.
      unfold Get.
      rewrite lookup_ge_None_2; [done|]. cbn. lia.
    + rewrite (proj2 (Z.ltb_ge n 0)) by lia.
      unfold Num.GetNum, Get.
      rewrite lookup_ge_None_2; [done|]. cbn. lia.
Qed.

(** Inside the tables [Increment] and [Decrement] undo each other. *)
Theorem Num_Increment_Decrement_round_trip (n : Z) :
  -19 ≤ n ≤ 19 →
  Num.Increment (Num.Decrement (NumLit n)) = NumLit n
  ∧ Num.Decrement (Num.Increment (NumLit n)) = NumLit n.
Proof.
  intros Hn.
  rewrite Decrement_in_range, Increment_in_range by lia.
  rewrite Increment_in_range, Decrement_in_range by lia.
  split; f_equal; lia.
Qed.

Lemma Num_Increment_Decrement_round_trip_witness :
  Num.Increment (Num.Decrement (NumLit 2)) = NumLit 2
  ∧ Num.Decrement (Num.Increment (NumLit 2)) = NumLit 2.
Proof. apply Num_Increment_Decrement_round_trip. lia. Defined.

(** ** Turns of the game *)

Lemma Act_Evaluated_inv {created : list string} gs a r :
  Act created gs a = Evaluated r →
  extends_PlayerState gs.2 = true ∧ a ∈ ListActions_here created gs ∧ r = Act_body created gs a.
Proof.
  unfold Act. destruct (extends_PlayerState gs.2); cbn; [|done].
  case_bool_decide; [|done]. by intros [= <-].
Qed.

Lemma Update_position_same (s : PlayerState) p :
  position s = p → Update_position s p = s.
Proof. destruct s. cbn. by intros ->. Qed.

Lemma legal_direction_slot {created : list string} gs cur a :
  position gs.2 = AtLevel cur →
  a ∈ ListActions_here created gs →
  ∃ target, slot cur a = Some target ∧ target ∈ level cur.
Proof.
  intros Hpos. unfold ListActions_here. rewrite Hpos, ListActions_level.
  destruct cur as [l f r]. unfold slot. cbn [level].
  intros [->|[->|[->|[]%elem_of_nil]%elem_of_cons]%elem_of_cons]%elem_of_cons;
    cbn; eexists; (split; [reflexivity|]); repeat constructor.
Qed.

Lemma Move_arrive {created : list string} gs a cur target :
  position gs.2 = AtLevel cur →
  slot cur a = Some target →
  ∃ narr,
    Move created gs a cur = TGame narr (Alive (Update_position gs.2 (arrive cur target))).
Proof.
  intros Hpos (d & Hd & Hget)%slot_direction.
  unfold Move. rewrite Hd, Hget.
  destruct target; eexists; cbn [arrive]; try reflexivity.
  by rewrite Update_position_same.
Qed.

Lemma Act_navigation_inv {created : list string} gs a cur r :
  position gs.2 = AtLevel cur →
  Act created gs a = Evaluated r →
  ∃ narr target,
    slot cur a = Some target
    ∧ target ∈ level cur
    ∧ r = TGame narr (Alive (Update_position gs.2 (arrive cur target))).
Proof.
  intros Hpos (Hext & Hin & ->)%Act_Evaluated_inv.
  destruct (legal_direction_slot gs cur a Hpos Hin) as (target & Hslot & Hlev).
  destruct (Move_arrive (created:=created) gs a cur target Hpos Hslot)
    as [narr Hmove].
  exists narr, target. split_and!; [done..|].
  unfold Act_body. by rewrite Hpos.
Qed.

Lemma Act_interaction_inv {created : list string} gs a e r :
  position gs.2 = AtElement e →
  Act created gs a = Evaluated r →
  ∃ req key,
    prop (actions e) a = Some (req, key)
    ∧ r = (if extends_GameState (Actions gs.2 key)
           then CheckActionResult (Actions gs.2 key)
           else TNever).
Proof.
  intros Hpos Hact.
  destruct (Act_Evaluated_inv gs a r Hact) as (Hext & Hin & _).
  destruct (ListActions_here_prop gs a e Hpos Hin) as [[req key] Hprop].
  exists req, key. split; [done|].
  rewrite (Act_interaction gs a e req key Hext Hpos Hin Hprop) in Hact.
  by injection Hact.
Qed.

(** What the entries of the registry do to a player state. *)
Lemma Actions_effect s key :
  (key = spidersRoom_putMask ∧ (Actions s key).2 = EffectNever)
  ∨ ∃ s', (Actions s key).2 = EffectState s'
      ∧ position s' ∈ [AtLevel GameMap_0; AtLevel GameMap_1; AtLevel GameMap_2]
      ∧ health s' = (if bites key then Num.Decrement (health s) else health s)
      ∧ inventory s'
        = match key with
          | keyRoom_key => SmallKey :: inventory s
          | chest_unlock => SpiderMask :: inventory s
          | _ => inventory s
          end.
Proof.
  destruct key; [right..|left|right|right|right]; try done;
    (eexists; split_and!; [reflexivity| |reflexivity..]);
    cbn; repeat constructor.
Qed.

Lemma Decrement_NumLit_inv h m :
  Num.Decrement h = NumLit m → ∃ n, h = NumLit n ∧ m = n - 1.
Proof.
  destruct h as [n| |]; [|done..]. intros Hdec. exists n. split; [done|].
  destruct (decide (-19 ≤ n ≤ 21)) as [Hin|Hout].
  - rewrite Decrement_in_range in Hdec by done. by injection Hdec.
  - destruct (decide (n < -20)).
    + by rewrite Decrement_below_table in Hdec.
    + destruct (decide (n = -20)) as [->|]; [done|].
      rewrite Decrement_above_table in Hdec by lia. done.
Qed.

(** The result of an interaction that leaves the player alive. *)
Lemma Act_interaction_alive {created : list string} gs a e narr s' :
  position gs.2 = AtElement e →
  Act created gs a = Evaluated (TGame narr (Alive s')) →
  ∃ req key,
    prop (actions e) a = Some (req, key)
    ∧ (Actions gs.2 key).2 = EffectState s'
    ∧ extends_0 (health s') = false
    ∧ health s' ≠ NumUndefined.
Proof.
  intros Hpos Hact.
  destruct (Act_interaction_inv gs a e _ Hpos Hact) as (req & key & Hprop & Hr).
  exists req, key. split; [done|].
  destruct (Actions gs.2 key) as [text eff] eqn:Heff.
  unfold extends_GameState, CheckActionResult in Hr. cbn in Hr.
  destruct eff as [|s'']; [done|].
  unfold extends_PlayerState in Hr. case_bool_decide; [|done].
  destruct (extends_0 (health s'')) eqn:H0; [done|].
  destruct (position s''); injection Hr as _ ->; done.
Qed.

(** Going through a corridor: the narration is the description of the level
    the corridor leads to, the position becomes that level, and health and
    inventory stay as they are. *)
Theorem Act_corridor (created : list string)
    (gs : GameState) (cur : MapLevel) (a d : string)
    (next : MapLevel) :
  extends_PlayerState gs.2 = true →
  position gs.2 = AtLevel cur →
  slot cur a = Some (Corridor d next) →
  Act created gs a
  = Evaluated
      (TGame (DescribeMapLevel next)
         (Alive {| health := health gs.2; position := AtLevel next;
                   inventory := inventory gs.2 |})).
Proof.
  intros Hext Hpos Hslot.
  rewrite (Act_navigation gs cur a (Corridor d next)) by done.
  apply slot_direction in Hslot as (dir & Hdir & Hget).
  unfold Move. by rewrite Hdir, Hget.
Qed.

Lemma Act_corridor_witness :
  Act [] NewGame "forward"
  = Evaluated
      (TGame (DescribeMapLevel GameMap_1) (Alive (player 2 (AtLevel GameMap_1) []))).
Proof.
  apply (Act_corridor [] NewGame GameMap_0 "forward" "a dark and humid corridor."
           GameMap_1); reflexivity.
Defined.

(** Every action at a level leaves the player alive with the same health and
    inventory, at the place the slot of the direction leads to: the level
    itself for a wall, the next level for a corridor, the room or item
    otherwise.  Navigation is never post-processed into a game over or a
    win. *)
Theorem Act_navigation_frame (created : list string)
    (gs : GameState) (a : string) (cur : MapLevel)
    (r : TResult) :
  position gs.2 = AtLevel cur →
  Act created gs a = Evaluated r →
  ∃ narr s' target,
    r = TGame narr (Alive s')
    ∧ slot cur a = Some target
    ∧ position s' = arrive cur target
    ∧ health s' = health gs.2
    ∧ inventory s' = inventory gs.2.
Proof.
  intros Hpos Hact.
  destruct (Act_navigation_inv gs a cur r Hpos Hact)
    as (narr & target & Hslot & _ & ->).
  by exists narr, (Update_position gs.2 (arrive cur target)), target.
Qed.

Lemma Act_navigation_frame_witness :
  ∃ narr s' target,
    TGame (DescribeMapLevel GameMap_1) (Alive (player 2 (AtLevel GameMap_1) []))
    = TGame narr (Alive s')
    ∧ slot GameMap_0 "forward" = Some target
    ∧ position s' = arrive GameMap_0 target
    ∧ health s' = health NewGame.2
    ∧ inventory s' = inventory NewGame.2.
Proof.
  apply (Act_navigation_frame [] NewGame "forward" GameMap_0 _ eq_refl eq_refl).
Defined.

(** A turn changes the health by at most one hit point, downwards: the
    player state [Act] returns has the health of the input, or the input had a
    number and the result has its predecessor. *)
Theorem Act_health_step (created : list string)
    (gs : GameState) (a narr : string) (s' : PlayerState) :
  Act created gs a = Evaluated (TGame narr (Alive s')) →
  health s' = health gs.2
  ∨ ∃ n, health gs.2 = NumLit n ∧ health s' = NumLit (n - 1) ∧ n ≠ 1.
Proof.
  intros Hact. destruct (position gs.2) as [cur|e] eqn:Hpos.
  - destruct (Act_navigation_inv gs a cur _ Hpos Hact)
      as (? & ? & _ & _ & [= _ ->]). by left.
  - destruct (Act_interaction_alive gs a e narr s' Hpos Hact)
      as (req & key & _ & Heff & H0 & Hdef).
    destruct (Actions_effect gs.2 key) as [[_ Hnever]|(s'' & Hs & _ & Hh & _)];
      [congruence|].
    rewrite Heff in Hs. injection Hs as <-.
    destruct (bites key); [|by left]. right.
    destruct (health s') as [m| |] eqn:Hm; [|done..].
    symmetry in Hh. apply Decrement_NumLit_inv in Hh as (n & Hn & ->).
    exists n. split_and!; [done..|]. intros ->. done.
Qed.

Lemma Act_health_step_witness :
  health (player 1 (AtLevel GameMap_1) []) = health (player 2 (AtElement spidersRoomSouth) [])
  ∨ ∃ n, health (player 2 (AtElement spidersRoomSouth) []) = NumLit n
         ∧ health (player 1 (AtLevel GameMap_1) []) = NumLit (n - 1) ∧ n ≠ 1.
Proof.
  apply (Act_health_step [] (EmptyString, player 2 (AtElement spidersRoomSouth) [])
           "Reach for the other door"
           ((Actions NewState spidersRoomSouthDoor_runForDoor).1 +:+ " "
              +:+ DescribeMapLevel GameMap_1)
           (player 1 (AtLevel GameMap_1) [])).
  reflexivity.
Defined.

(** A turn never takes an item away: the inventory [Act] returns is the
    inventory of the input, with at most one new item in front. *)
Theorem Act_inventory_grows (created : list string)
    (gs : GameState) (a narr : string) (s' : PlayerState) :
  Act created gs a = Evaluated (TGame narr (Alive s')) →
  inventory s' = inventory gs.2
  ∨ ∃ item, inventory s' = item :: inventory gs.2.
Proof.
  intros Hact. destruct (position gs.2) as [cur|e] eqn:Hpos.
  - destruct (Act_navigation_inv gs a cur _ Hpos Hact)
      as (? & ? & _ & _ & [= _ ->]). by left.
  - destruct (Act_interaction_alive gs a e narr s' Hpos Hact)
      as (req & key & _ & Heff & _).
    destruct (Actions_effect gs.2 key) as [[_ Hnever]|(s'' & Hs & _ & _ & Hi)];
      [congruence|].
    rewrite Heff in Hs. injection Hs as <-.
    destruct key; eauto.
Qed.

Lemma Act_inventory_grows_witness :
  inventory (player 2 (AtLevel GameMap_0) [SmallKey])
  = inventory (player 2 (AtElement keyRoom) [])
  ∨ ∃ item, inventory (player 2 (AtLevel GameMap_0) [SmallKey])
            = item :: inventory (player 2 (AtElement keyRoom) []).
Proof.
  apply (Act_inventory_grows [] (EmptyString, player 2 (AtElement keyRoom) [])
           "Open the drawer"
           ((Actions NewState keyRoom_key).1 +:+ " " +:+ DescribeMapLevel GameMap_0)
           (player 2 (AtLevel GameMap_0) [SmallKey])).
  reflexivity.
Defined.

(** One action never kills a player with two or more hit points: the null
    state is not returned for a health of 2 or more. *)
Theorem Act_no_death_above_one (created : list string)
    (gs : GameState) (a narr : string) (n : Z) :
  health gs.2 = NumLit n →
  2 ≤ n →
  Act created gs a ≠ Evaluated (TGame narr Null).
Proof.
  intros Hh Hn Hact. destruct (position gs.2) as [cur|e] eqn:Hpos.
  - by destruct (Act_navigation_inv gs a cur _ Hpos Hact)
      as (? & ? & _ & _ & [=]).
  - destruct (Act_interaction_inv gs a e _ Hpos Hact) as (req & key & _ & Hr).
    destruct (Actions gs.2 key) as [text eff] eqn:Heff.
    destruct (Actions_effect gs.2 key) as [[_ Hnever]|(s' & Hs & _ & Hh' & _)];
      rewrite Heff in *; cbn in *; subst eff; [done|].
    unfold extends_GameState, CheckActionResult in Hr. cbn in Hr.
    destruct (extends_PlayerState s'); [|done].
    assert (extends_0 (health s') = false) as H0.
    { rewrite Hh', Hh. destruct (bites key); [|cbn; by case_bool_decide; lia].
      destruct (decide (n ≤ 21)).
      - rewrite Decrement_in_range by lia. cbn. case_bool_decide; [lia|done].
      - by rewrite Decrement_above_table by lia. }
    rewrite H0 in Hr. by destruct (position s').
Qed.

Lemma Act_no_death_above_one_witness :
  Act [] (EmptyString, player 2 (AtElement chest) []) "Force it open"
  ≠ Evaluated (TGame EmptyString Null).
Proof.
  apply (Act_no_death_above_one [] (EmptyString, player 2 (AtElement chest) [])
           "Force it open" EmptyString 2); [reflexivity|lia].
Defined.

(** Once the action is accepted, [Act] evaluates to a game state: for a
    player whose health is a number from -19 to 21, every action that satisfies
    the constraint gives a narration and a state, never [never] or
    [undefined]. *)
Theorem Act_total_for_legal_actions (created : list string)
    (gs : GameState) (a : string) (n : Z) :
  health gs.2 = NumLit n →
  -19 ≤ n ≤ 21 →
  a ∈ ListActions_here created gs →
  ∃ narr final, Act created gs a = Evaluated (TGame narr final).
Proof.
  intros Hh Hn Hin.
  assert (Hext : extends_PlayerState gs.2 = true).
  { unfold extends_PlayerState. rewrite Hh. by apply bool_decide_eq_true_2. }
  destruct (position gs.2) as [cur|e] eqn:Hpos.
  - destruct (legal_direction_slot gs cur a Hpos Hin) as (target & Hslot & _).
    rewrite (Act_navigation gs cur a target) by done.
    destruct (Move_arrive (created:=created) gs a cur target Hpos Hslot)
      as [narr ->]. eauto.
  - destruct (ListActions_here_prop gs a e Hpos Hin) as [[req key] Hprop].
    rewrite (Act_interaction gs a e req key) by done.
    destruct (Actions gs.2 key) as [text eff] eqn:Heff.
    destruct (Actions_effect gs.2 key) as [[_ Hnever]|(s' & Hs & _ & Hh' & _)];
      rewrite Heff in *; cbn in *; subst eff; [by eauto|].
    assert (∃ m, health s' = NumLit m) as [m Hm].
    { rewrite Hh', Hh. destruct (bites key); [|by eauto].
      rewrite Decrement_in_range by done. eauto. }
    rewrite (extends_GameState_NumLit text s' m) by done.
    unfold CheckActionResult. cbn.
    destruct (extends_0 (health s')); [by eauto|].
    destruct (position s'); eauto.
Qed.

Lemma Act_total_for_legal_actions_witness :
  ∃ narr final,
    Act [] (EmptyString, player 1 (AtElement chest) [SmallKey]) "Use the Small key"
    = Evaluated (TGame narr final).
Proof.
  apply (Act_total_for_legal_actions []
           (EmptyString, player 1 (AtElement chest) [SmallKey])
           "Use the Small key" 1 eq_refl ltac:(lia)).
  by apply (bool_decide_unpack _); vm_compute.
Defined.

(** Past the tables of [Decrement] there is no game state: for a player
    whose health is -20 or more than 21, an accepted action whose effect takes
    a hit point makes [Act] evaluate to [never], because the updated player
    state has [undefined] as health and is no [GameState]. *)
Theorem Act_never_past_health_table (created : list string)
    (gs : GameState) (a : string)
    (e : MapElement) (req : option GameItems) (key : ActionKey) (n : Z) :
  health gs.2 = NumLit n →
  n = -20 ∨ 21 < n →
  position gs.2 = AtElement e →
  a ∈ ListActions_here created gs →
  prop (actions e) a = Some (req, key) →
  bites key = true →
  Act created gs a = Evaluated TNever.
Proof.
  intros Hh Hn Hpos Hin Hprop Hbite.
  assert (Hext : extends_PlayerState gs.2 = true).
  { unfold extends_PlayerState. rewrite Hh. by apply bool_decide_eq_true_2. }
  rewrite (Act_interaction gs a e req key) by done.
  assert (Hdec : Num.Decrement (health gs.2) = NumUndefined).
  { rewrite Hh. destruct Hn as [->|Hn]; [done|by apply Decrement_above_table]. }
  destruct key; try discriminate Hbite;
    unfold extends_GameState, extends_PlayerState; cbn; by rewrite Hdec.
Qed.

Lemma Act_never_past_health_table_witness :
  Act [] (EmptyString, player 22 (AtElement chest) []) "Force it open"
  = Evaluated TNever.
Proof.
  apply (Act_never_past_health_table []
           (EmptyString, player 22 (AtElement chest) []) "Force it open"
           chest None chest_force 22 eq_refl ltac:(right; lia) eq_refl);
    [|reflexivity..].
  by apply (bool_decide_unpack _); vm_compute.
Defined.

(** ** The shipped map *)

Lemma legal_entry_held {created : list string} gs a e req key :
  position gs.2 = AtElement e →
  NoDup (actions e).*1 →
  a ∈ ListActions_here created gs →
  prop (actions e) a = Some (req, key) →
  requiredItem_held (inventory gs.2) (req, key).
Proof.
  intros Hpos Hnd Hin Hprop. unfold ListActions_here in Hin. rewrite Hpos in Hin.
  apply elem_of_ListActions in Hin as (entry & Hentry & Hheld).
  apply prop_Some_elem_of in Hprop.
  by rewrite <- (NoDup_keys_functional _ _ _ _ Hnd Hentry Hprop).
Qed.

Lemma map_elements_NoDup e :
  AtElement e ∈ map_positions → NoDup (actions e).*1.
Proof.
  unfold map_positions. rewrite !elem_of_cons, elem_of_nil.
  intros [?|[?|[?|[?|[?|[[= ->]|[[= ->]|[[= ->]|[[= ->]|[]]]]]]]]]];
    try discriminate; by apply (bool_decide_unpack _); vm_compute.
Qed.

Ltac prop_cases H :=
  cbn in H; repeat (case_decide; [subst; try discriminate H|]);
  try discriminate H.

Ltac elem_of_here := repeat first [apply list_elem_of_here|apply list_elem_of_further].

(** On the map, the win is returned only for "Put on the mask" in one of the
    two spiders' rooms, and only to a player who holds the Spider Mask. *)
Theorem Act_win_needs_mask (created : list string)
    (gs : GameState) (a narr : string) :
  position gs.2 ∈ map_positions →
  Act created gs a = Evaluated (TGame narr Never) →
  SpiderMask ∈ inventory gs.2
  ∧ a = "Put on the mask"
  ∧ (position gs.2 = AtElement spidersRoomSouth
     ∨ position gs.2 = AtElement spidersRoomEast).
Proof.
  intros Hmap Hact.
  destruct (Act_Evaluated_inv gs a _ Hact) as (_ & Hin & _).
  destruct (position gs.2) as [cur|e] eqn:Hpos.
  { by destruct (Act_navigation_inv gs a cur _ Hpos Hact) as (? & ? & _ & _ & [=]). }
  destruct (Act_interaction_inv gs a e _ Hpos Hact) as (req & key & Hprop & Hr).
  assert (key = spidersRoom_putMask) as ->.
  { destruct (Actions gs.2 key) as [text eff] eqn:Heff.
    destruct (Actions_effect gs.2 key) as [[-> _]|(s' & Hs & _)]; [done|].
    rewrite Heff in Hs. cbn in Hs. subst eff.
    unfold extends_GameState, CheckActionResult in Hr. cbn in Hr.
    destruct (extends_PlayerState s'); [|done].
    destruct (extends_0 (health s')); [done|]. by destruct (position s'). }
  pose proof (legal_entry_held gs a e req _ Hpos (map_elements_NoDup e Hmap)
                Hin Hprop) as Hheld.
  unfold map_positions in Hmap. rewrite !elem_of_cons, elem_of_nil in Hmap.
  destruct Hmap as [?|[?|[?|[?|[?|[[= ->]|[[= ->]|[[= ->]|[[= ->]|[]]]]]]]]]];
    try discriminate; prop_cases Hprop; injection Hprop as <-;
    (destruct Hheld as [?|(item & [= <-] & ?)]; [done|]); auto.
Qed.

Lemma Act_win_needs_mask_witness :
  SpiderMask ∈ inventory (player 1 (AtElement spidersRoomEast) [SpiderMask; SmallKey])
  ∧ "Put on the mask" = "Put on the mask"
  ∧ (AtElement spidersRoomEast = AtElement spidersRoomSouth
     ∨ AtElement spidersRoomEast = AtElement spidersRoomEast).
Proof.
  apply (Act_win_needs_mask []
           (EmptyString, player 1 (AtElement spidersRoomEast) [SpiderMask; SmallKey])
           "Put on the mask" (Actions NewState spidersRoom_putMask).1).
  - unfold map_positions. cbn. elem_of_here.
  - reflexivity.
Defined.

Lemma arrive_on_map cur target :
  AtLevel cur ∈ map_positions →
  target ∈ level cur →
  arrive cur target ∈ map_positions.
Proof.
  unfold map_positions at 1. rewrite !elem_of_cons, elem_of_nil.
  intros [[= ->]|[[= ->]|[[= ->]|[[= ->]|[[= ->]|[?|[?|[?|[?|[]]]]]]]]]];
    try discriminate; cbn [level GameMap_0 GameMap_1 GameMap_2 GameMap_3 GameMap_4];
    rewrite !elem_of_cons, elem_of_nil;
    intros [->|[->|[->|[]]]]; unfold map_positions; cbn; elem_of_here.
Qed.

Lemma in_play_turn gs gs' : in_play gs.2 → turn gs gs' → in_play gs'.2.
Proof.
  intros (Hh & Hmap & Hitems & Hmask) (created & a & Hact).
  destruct (Act_Evaluated_inv gs a _ Hact) as (_ & Hin & _).
  destruct (position gs.2) as [cur|e] eqn:Hpos.
  - destruct (Act_navigation_inv gs a cur _ Hpos Hact)
      as (narr & target & _ & Hlev & [= _ ->]).
    split_and!; [done| |done..]. cbn. by apply arrive_on_map.
  - destruct (Act_interaction_alive gs a e _ _ Hpos Hact)
      as (req & key & Hprop & Heff & H0 & _).
    pose proof (legal_entry_held gs a e req key Hpos (map_elements_NoDup e Hmap)
                  Hin Hprop) as Hheld.
    destruct (Actions_effect gs.2 key)
      as [[_ Hnever]|(s' & Hs & Hp' & Hh' & Hi')]; [congruence|].
    rewrite Heff in Hs. injection Hs as <-.
    split_and!.
    + rewrite Hh' in H0 |- *. destruct (bites key); [|done].
      destruct Hh as [Hh|Hh]; rewrite Hh in H0 |- *; [done|by left].
    + rewrite !elem_of_cons, elem_of_nil in Hp'.
      destruct Hp' as [->|[->|[->|[]]]]; unfold map_positions; elem_of_here.
    + rewrite Hi'. intros item. destruct key; rewrite ?elem_of_cons;
        intros Hitem; try (destruct Hitem as [->|Hitem]; [auto|]);
        by apply Hitems.
    + rewrite Hi'. destruct key; rewrite ?elem_of_cons; try exact Hmask;
        [by intros _; left|].
      intros _. right.
      unfold map_positions in Hmap. rewrite !elem_of_cons, elem_of_nil in Hmap.
      destruct Hmap as [?|[?|[?|[?|[?|[[= ->]|[[= ->]|[[= ->]|[[= ->]|[]]]]]]]]]];
        try discriminate; prop_cases Hprop; injection Hprop as <-;
        by destruct Hheld as [?|(item & [= <-] & ?)].
Qed.

(** Every game state a caller can hold, starting from [NewGame] and going on
    with what [Act] returns, has a player with one or two hit points, at a
    level or in an interactive element of the map, who carries nothing but the
    Small Key and the Spider Mask, and the mask only with the key.  A health
    of 0 is never handed back as a live state. *)
Theorem reachable_in_play (gs : GameState) : reachable gs → in_play gs.2.
Proof.
  induction 1 as [|gs gs' _ IH Hturn].
  - split_and!; cbn.
    + by right.
    + unfold map_positions. elem_of_here.
    + by intros item ?%elem_of_nil.
    + by intros ?%elem_of_nil.
  - by apply (in_play_turn gs gs').
Qed.

Lemma play_reachable {created : list string} gs acts gs' :
  reachable gs → play created gs acts = Some gs' → reachable gs'.
Proof.
  revert gs. induction acts as [|a rest IH]; intros gs Hgs; cbn.
  - by intros [= <-].
  - destruct (Act created gs a) as [|[| |narr [s| |]]] eqn:Hact; try done.
    apply IH. apply (reachable_turn gs (narr, s)); [done|]. by exists created, a.
Qed.

Lemma reachable_in_play_witness :
  in_play (player 2 (AtElement chest) [SmallKey]).
Proof.
  apply (reachable_in_play
           ("You reach for the Locked Chest. Your available actions are: Use the Small key, Force it open, Leave it",
            player 2 (AtElement chest) [SmallKey])).
  apply (play_reachable (created:=[]) NewGame
           ["left"; "Open the drawer"; "forward"; "right"; "right"]).
  - apply reachable_NewGame.
  - reflexivity.
Defined.

Lemma Act_move {created : list string} gs cur a target :
  extends_PlayerState gs.2 = true →
  position gs.2 = AtLevel cur →
  slot cur a = Some target →
  ∃ narr,
    Act created gs a
    = Evaluated (TGame narr (Alive (Update_position gs.2 (arrive cur target)))).
Proof.
  intros Hext Hpos Hslot. rewrite (Act_navigation gs cur a target) by done.
  destruct (Move_arrive (created:=created) gs a cur target Hpos Hslot)
    as [narr ->].
  by exists narr.
Qed.

Lemma legal_here {created : list string} gs a e entry :
  position gs.2 = AtElement e →
  (a, entry) ∈ actions e →
  requiredItem_held (inventory gs.2) entry →
  a ∈ ListActions_here created gs.
Proof.
  intros Hpos Hin Hheld. unfold ListActions_here. rewrite Hpos.
  apply elem_of_ListActions. by exists entry.
Qed.

Lemma play_cons {created : list string} gs a rest narr s :
  Act created gs a = Evaluated (TGame narr (Alive s)) →
  play created gs (a :: rest) = play created (narr, s) rest.
Proof. intros Hact. cbn. by rewrite Hact. Qed.

(** The game can be won without losing a hit point: nine accepted actions
    lead from [NewGame] to the spiders' room of level 4 with the mask, where
    "Put on the mask" returns the win. *)
Theorem game_can_be_won (created : list string) :
  ∃ acts gs,
    play created NewGame acts = Some gs
    ∧ reachable gs
    ∧ length acts = 9%nat
    ∧ health gs.2 = NumLit 2
    ∧ Act created gs "Put on the mask"
      = Evaluated (TGame (Actions gs.2 spidersRoom_putMask).1 Never).
Proof.
  destruct (Act_move (created:=created) NewGame GameMap_0 "left" keyRoom)
    as [n1 H1]; [done..|].
  pose proof (Act_interaction_to_level_aux (created:=created)
                (n1, player 2 (AtElement keyRoom) []) "Open the drawer"
                keyRoom None keyRoom_key (Actions NewState keyRoom_key).1
                (player 2 (AtLevel GameMap_0) [SmallKey]) GameMap_0 2
                eq_refl eq_refl) as H2.
  specialize (H2 ltac:(by eapply (legal_here _ _ keyRoom (None, keyRoom_key));
                        [|apply (bool_decide_unpack _); vm_compute|left])
                eq_refl eq_refl eq_refl eq_refl ltac:(lia)).
  destruct (Act_move (created:=created)
              ((Actions NewState keyRoom_key).1 +:+ " " +:+ DescribeMapLevel GameMap_0,
               player 2 (AtLevel GameMap_0) [SmallKey])
              GameMap_0 "forward" (Forward_of GameMap_0))
    as [n3 H3]; [done..|].
  destruct (Act_move (created:=created) (n3, player 2 (AtLevel GameMap_1) [SmallKey])
              GameMap_1 "right" (Right_of GameMap_1))
    as [n4 H4]; [done..|].
  destruct (Act_move (created:=created) (n4, player 2 (AtLevel GameMap_2) [SmallKey])
              GameMap_2 "right" chest)
    as [n5 H5]; [done..|].
  pose proof (Act_interaction_to_level_aux (created:=created)
                (n5, player 2 (AtElement chest) [SmallKey]) "Use the Small key"
                chest (Some SmallKey) chest_unlock (Actions NewState chest_unlock).1
                (player 2 (AtLevel GameMap_2) [SpiderMask; SmallKey]) GameMap_2 2
                eq_refl eq_refl) as H6.
  specialize (H6 ltac:(by eapply (legal_here _ _ chest (Some SmallKey, chest_unlock));
                        [|apply (bool_decide_unpack _); vm_compute
                         |apply (bool_decide_unpack _); vm_compute])
                eq_refl eq_refl eq_refl eq_refl ltac:(lia)).
  destruct (Act_move (created:=created)
              ((Actions NewState chest_unlock).1 +:+ " " +:+ DescribeMapLevel GameMap_2,
               player 2 (AtLevel GameMap_2) [SpiderMask; SmallKey])
              GameMap_2 "left" (Left_of GameMap_2))
    as [n7 H7]; [done..|].
  destruct (Act_move (created:=created)
              (n7, player 2 (AtLevel GameMap_3) [SpiderMask; SmallKey])
              GameMap_3 "left" (Left_of GameMap_3))
    as [n8 H8]; [done..|].
  destruct (Act_move (created:=created)
              (n8, player 2 (AtLevel GameMap_4) [SpiderMask; SmallKey])
              GameMap_4 "forward" spidersRoomEast)
    as [n9 H9]; [done..|].
  exists ["left"; "Open the drawer"; "forward"; "right"; "right";
          "Use the Small key"; "left"; "left"; "forward"].
  exists (n9, player 2 (AtElement spidersRoomEast) [SpiderMask; SmallKey]).
  assert (Hplay : play created NewGame
                    ["left"; "Open the drawer"; "forward"; "right"; "right";
                     "Use the Small key"; "left"; "left"; "forward"]
                  = Some (n9, player 2 (AtElement spidersRoomEast)
                                [SpiderMask; SmallKey])).
  { rewrite (play_cons _ _ _ _ _ H1), (play_cons _ _ _ _ _ H2),
      (play_cons _ _ _ _ _ H3), (play_cons _ _ _ _ _ H4),
      (play_cons _ _ _ _ _ H5), (play_cons _ _ _ _ _ H6),
      (play_cons _ _ _ _ _ H7), (play_cons _ _ _ _ _ H8),
      (play_cons _ _ _ _ _ H9).
    reflexivity. }
  split_and!; [done| |done|done|].
  - by eapply (play_reachable NewGame); [apply reachable_NewGame|].
  - rewrite (Act_interaction _ "Put on the mask" spidersRoomEast
               (Some SpiderMask) spidersRoom_putMask); [done..| |done].
    eapply (legal_here _ _ spidersRoomEast (Some SpiderMask, spidersRoom_putMask));
      [done|by apply (bool_decide_unpack _); vm_compute
          |by apply (bool_decide_unpack _); vm_compute].
Qed.

(** ** What the player is told and what is accepted *)

(** More items never take an action away: the actions available with an
    inventory are available with every inventory that contains it, and they
    are always among the keys of the table. *)
Theorem ListActions_monotone (created : list string)
    {E : Type} (gs gs' : GameState)
    (table : Object (ElementAction E)) :
  inventory gs.2 ⊆ inventory gs'.2 →
  (∀ id, id ∈ ListActions created gs table → id ∈ ListActions created gs' table)
  ∧ ∀ id, id ∈ ListActions created gs table → id ∈ table.*1.
Proof.
  intros Hsub. split; intros id (entry & Hin & Hheld)%elem_of_ListActions.
  - apply elem_of_ListActions. exists entry. split; [done|].
    destruct Hheld as [?|(item & ? & ?)]; [by left|right].
    exists item. split; [done|]. by apply Hsub.
  - apply list_elem_of_fmap. by exists (id, entry).
Qed.

Lemma ListActions_monotone_witness :
  "Force it open"
  ∈ ListActions [] (EmptyString, player 2 (AtElement chest) [SmallKey]) (actions chest).
Proof.
  apply (proj1 (ListActions_monotone []
                  (EmptyString, player 2 (AtElement chest) [])
                  (EmptyString, player 2 (AtElement chest) [SmallKey])
                  (actions chest)
                  ltac:(by intros ? ?%elem_of_nil))
           "Force it open").
  by apply (bool_decide_unpack _); vm_compute.
Defined.

(** What the narration announces on entering a room or an item is what [Act]
    accepts next: the list after "Your available actions are: " is the list of
    the actions that satisfy the constraint in the returned game state, and
    exactly for those the next instantiation is not rejected. *)
Theorem announced_actions_are_accepted (created : list string)
    (gs : GameState) (cur : MapLevel)
    (a : string) (target : MapElement) :
  extends_PlayerState gs.2 = true →
  position gs.2 = AtLevel cur →
  slot cur a = Some target →
  InteractiveMapElement target = true →
  ∃ narr s' text,
    Act created gs a = Evaluated (TGame narr (Alive s'))
    ∧ narr = text +:+ ". Your available actions are: "
               +:+ List.Join (ListActions_here created (narr, s')) ", "
    ∧ ∀ b, b ∈ ListActions_here created (narr, s') ↔ ∃ r, Act created (narr, s') b = Evaluated r.
Proof.
  intros Hext Hpos Hslot Hint.
  rewrite (Act_navigation gs cur a target) by done.
  apply slot_direction in Hslot as (dir & Hdir & Hget).
  unfold Move. rewrite Hdir, Hget.
  assert (Hacc : ∀ narr b,
            b ∈ ListActions created gs (actions target) ↔
            ∃ r, Act created (narr, Update_position gs.2 (AtElement target)) b = Evaluated r).
  { intros narr b. split.
    - intros Hb. eexists. apply Act_legal; [done|]. done.
    - intros [r (_ & Hb & _)%Act_Evaluated_inv]. done. }
  destruct target as [| |d inside acts|d acts]; try discriminate Hint.
  - eexists _, _, inside. split; [reflexivity|].
    split; [|apply Hacc]. cbn. by rewrite ToTuple_ListActions.
  - eexists _, _, ("You reach for the " +:+ d). split; [reflexivity|].
    split; [|apply Hacc]. cbn. rewrite ToTuple_ListActions.
    by rewrite append_assoc.
Qed.

Lemma announced_actions_are_accepted_witness :
  ∃ narr s' text,
    Act [] NewGame "left" = Evaluated (TGame narr (Alive s'))
    ∧ narr = text +:+ ". Your available actions are: "
               +:+ List.Join (ListActions_here [] (narr, s')) ", "
    ∧ ∀ b, b ∈ ListActions_here [] (narr, s') ↔ ∃ r, Act [] (narr, s') b = Evaluated r.
Proof.
  apply (announced_actions_are_accepted [] NewGame GameMap_0 "left" keyRoom);
    reflexivity.
Defined.
